(** * The callback registry of [later]: a model of [src/callback_registry.cpp]

    The registry is a timestamp-ordered queue of callbacks.  Producers [add]
    callbacks that become due at some point in time; the owning thread asks
    whether something is [due], [take]s what is due, [wait]s for the next
    callback and [list]s the queue for inspection.

    Every operation of the registry runs under the registry's (recursive)
    mutex, so each one is modelled as an atomic function on the queue.  Only
    [wait] gives the lock up, inside [condvar.timedwait]; what other threads
    and the clock do meanwhile is supplied by an explicit environment. *)

From Stdlib Require Import ZArith QArith Lia Lqa Sorted.
From stdpp Require Import base list strings.
Close Scope Q_scope.

(** ** Binary heaps on a vector

    [CallbackRegistry::queue] is a [std::priority_queue] over a
    [std::vector]: [push] is [push_back] followed by [std::push_heap], [pop]
    is [std::pop_heap] followed by [pop_back], and [top] is [front].  The
    heap algorithms are templates over the element type and the comparison
    [comp]; the element [x] at index [i] has its children at [2i+1] and
    [2i+2], and no element is [comp]-below its children. *)

(** The position of the parent of the element at [i > 0] *)
Definition parent (i : nat) : nat := (i - 1) / 2.

(** The exchange of the positions [i] and [j] *)
Definition transp (i j k : nat) : nat :=
  if decide (k = i) then j else if decide (k = j) then i else k.

Section Heap.
Context {A : Type}.
Variable comp : A → A → bool.

(** [std::iter_swap] on two positions of the vector *)
Definition swap (i j : nat) (c : list A) : list A :=
  match c !! i, c !! j with
  | Some x, Some y => <[j := x]> (<[i := y]> c)
  | _, _ => c
  end.

(** [comp(c[i], c[j])], false outside the vector *)
Definition comp_at (c : list A) (i j : nat) : bool :=
  match c !! i, c !! j with
  | Some x, Some y => comp x y
  | _, _ => false
  end.

(** The element at [i] moves towards the root while its parent is
    [comp]-below it. *)
Fixpoint sift_up (fuel i : nat) (c : list A) : list A :=
  match fuel with
  | 0 => c
  | S fuel' =>
      if (0 <? i) && comp_at c (parent i) i
      then sift_up fuel' (parent i) (swap (parent i) i c)
      else c
  end.

(** [std::push_heap(c.begin(), c.end(), comp)]: the last element is
    inserted into the heap made of the elements before it. *)
Definition push_heap (c : list A) : list A :=
  sift_up (length c) (length c - 1) c.

(** Among the element at [i] and its children in the heap [c[0..n)], the
    position of the one that is [comp]-above the others. *)
Definition top_of_three (n i : nat) (c : list A) : nat :=
  let l := 2 * i + 1 in
  let r := 2 * i + 2 in
  let m := if (l <? n) && comp_at c i l then l else i in
  if (r <? n) && comp_at c m r then r else m.

(** The element at [i] moves towards the leaves of the heap [c[0..n)]
    while one of its children is [comp]-above it; it is exchanged with the
    [comp]-largest of the two. *)
Fixpoint sift_down (fuel n i : nat) (c : list A) : list A :=
  match fuel with
  | 0 => c
  | S fuel' =>
      let m := top_of_three n i c in
      if m =? i then c else sift_down fuel' n m (swap i m c)
  end.

(** [std::pop_heap(c.begin(), c.end(), comp)]: the first element is
    exchanged with the last one, and the elements before the last are made
    a heap again. *)
Definition pop_heap (c : list A) : list A :=
  let n := length c in
  if 1 <? n then sift_down (n - 1) (n - 1) 0 (swap 0 (n - 1) c) else c.

(** [c[0..n)] is a heap: no element is [comp]-below its child. *)
Definition heap_upto (n : nat) (c : list A) : Prop :=
  ∀ k, 0 < k < n → comp_at c (parent k) k = false.

(** The same as a check that runs, as [std::is_heap] does. *)
Definition is_heapb (c : list A) : bool :=
  forallb (λ k, negb (comp_at c (parent k) k)) (seq 1 (length c - 1)).

(** The heap [c[0..n)] while [sift_up] is at [i]: only the element at [i]
    may be above its parent, and its children are below that parent. *)
Definition sifting_up (n i : nat) (c : list A) : Prop :=
  (∀ k, 0 < k < n → k ≠ i → comp_at c (parent k) k = false)
  ∧ (∀ k, 0 < k < n → parent k = i → 0 < i → comp_at c (parent i) k = false).

(** The heap [c[0..n)] while [sift_down] is at [i]: only the children of
    [i] may be above it, and they are below its parent. *)
Definition sifting_down (n i : nat) (c : list A) : Prop :=
  (∀ k, 0 < k < n → parent k ≠ i → comp_at c (parent k) k = false)
  ∧ (∀ k, 0 < k < n → parent k = i → 0 < i → comp_at c (parent i) k = false).

End Heap.

(** ** Time

    [Timestamp] (a point in time) and its operations are declared in
    [timestamp.h], outside [callback_registry.cpp]; seconds are [double]s in
    the code.  Both are modelled by exact rationals: rounding, infinities and
    NaN are outside the model. *)

(** Modelled from the spec: the class [Timestamp] of [timestamp.h], "an
    absolute point in time", here a number of seconds since some epoch. *)
Definition Timestamp : Type := Q.

(** Modelled from the spec: the constructor [Timestamp(secs)] of
    [timestamp.h], "dueTime = now + delaySeconds"; [now] is the reading of
    the clock that the constructor takes. *)
Definition Timestamp_after (now : Timestamp) (secs : Q) : Timestamp :=
  (now + secs)%Q.

(** Modelled from the spec: [Timestamp::diff_secs] of [timestamp.h],
    "sleepFor = wakeAt - now". *)
Definition diff_secs (a b : Timestamp) : Q := (a - b)%Q.

(** Modelled from the spec: [Timestamp::operator<] of [timestamp.h], the
    order of points in time ("earlier due time first"); it is [<] on [double]
    seconds too. *)
Definition Qltb (a b : Q) : bool := negb (Qle_bool b a).

(** Modelled from the spec: [Timestamp::operator>] of [timestamp.h], the
    converse of [operator<]; it is [>] on [double] seconds too. *)
Definition Qgtb (a b : Q) : bool := Qltb b a.

(** ** Callbacks *)

(** The unit of work of a callback: a bound native function
    ([boost::bind(func, data)]) or a function of the host ([Rcpp::Function]);
    both are opaque handles here. *)
Inductive Work : Type :=
| BoostFunction (func data : Z)
| RcppFunction (func : Z).

(** [class Callback] with its two subclasses, told apart by [func]. *)
Record Callback : Type := mkCallback {
  when : Timestamp;
  callbackNum : Z;
  func : Work
}.

(** The process-wide counter [nextCallbackNum] is a [uint64_t]. *)
Definition uint64_modulus : Z := 2 ^ 64.

(** [this->callbackNum = nextCallbackNum++] in both constructors: the new
    callback and the counter after it. *)
Definition new_Callback (when : Timestamp) (func : Work) (nextCallbackNum : Z)
  : Callback * Z :=
  (mkCallback when nextCallbackNum func,
   ((nextCallbackNum + 1) mod uint64_modulus)%Z).

(** Modelled from the spec: [Callback::operator<] of [callback_registry.h],
    "a strict total order over (dueTime, sequence) ascending: earlier due
    time first, and among equal due times, earlier-inserted first". *)
Definition cb_lt (a b : Callback) : bool :=
  Qltb (when a) (when b)
  || (Qeq_bool (when a) (when b) && (callbackNum a <? callbackNum b)%Z).

(** Modelled from the spec: [Callback::operator>] of [callback_registry.h],
    the converse of [operator<]. *)
Definition cb_gt (a b : Callback) : bool := cb_lt b a.

(** Modelled from the spec: [pointer_greater_than<Callback_sp>] of
    [callback_registry.h], the comparison of the registry's priority queue; it
    compares what the two pointers point to with [operator>], which makes the
    queue's top the least callback. *)
Definition pointer_greater_than (a b : Callback) : bool := cb_gt a b.

(** [a] is not after [b] in the order of callbacks. *)
Definition cb_le (a b : Callback) : Prop := cb_gt a b = false.

(** The same by due time and sequence number: [a] is due before [b], or at
    the same time with a sequence number that is not higher. *)
Definition in_order (a b : Callback) : Prop :=
  (when a < when b)%Q
  ∨ ((when a == when b)%Q ∧ (callbackNum a <= callbackNum b)%Z).

(** What the host is shown of a callback ([Rcpp::List::create]). *)
Inductive RValue : Type :=
| RCharacter (s : string)
| RFunction (func : Z).

Record Representation : Type := mkRepresentation {
  rep_id : Z;
  rep_when : Q;
  rep_callback : RValue
}.

(** [BoostFunctionCallback::rRepresentation] and
    [RcppFunctionCallback::rRepresentation]; [now] is the clock as
    [Timestamp()] reads it. *)
Definition rRepresentation (cb : Callback) (now : Timestamp) : Representation :=
  mkRepresentation
    (callbackNum cb)
    (diff_secs (when cb) now)
    match func cb with
    | BoostFunction _ _ => RCharacter "C++ function"
    | RcppFunction f => RFunction f
    end.

(** ** Results

    Reading the top of an empty queue or popping it is undefined in C++,
    [Rcpp::checkUserInterrupt] leaves by an exception, and a loop of the
    model can use up its fuel. *)
Inductive Stop : Type :=
| TopOfEmpty
| PopOfEmpty
| UserInterrupt
| OutOfFuel.

Inductive Result (A : Type) : Type :=
| Ok (a : A)
| Err (e : Stop).
Arguments Ok {A} a.
Arguments Err {A} e.

#[global] Instance Result_ret : MRet Result := λ A a, Ok a.

#[global] Instance Result_bind : MBind Result := λ A B k r,
  match r with
  | Ok a => k a
  | Err e => Err e
  end.

(** ** The priority queue

    [std::priority_queue<Callback_sp, std::vector<Callback_sp>,
    pointer_greater_than<Callback_sp>>]: its state is the vector. *)
Module priority_queue.

Definition empty (c : list Callback) : bool :=
  match c with
  | [] => true
  | _ :: _ => false
  end.

(** [c.front()] *)
Definition top (c : list Callback) : Result Callback :=
  match c with
  | [] => Err TopOfEmpty
  | x :: _ => Ok x
  end.

(** [c.push_back(x); std::push_heap(c.begin(), c.end(), comp)] *)
Definition push (x : Callback) (c : list Callback) : list Callback :=
  push_heap pointer_greater_than (c ++ [x]).

(** [std::pop_heap(c.begin(), c.end(), comp); c.pop_back()] *)
Definition pop (c : list Callback) : Result (list Callback) :=
  match c with
  | [] => Err PopOfEmpty
  | _ :: _ => Ok (take (length c - 1) (pop_heap pointer_greater_than c))
  end.

End priority_queue.

(** The queue is a heap for the registry's comparison. *)
Definition is_heap (c : list Callback) : Prop :=
  is_heapb pointer_greater_than c = true.

(** ** The registry *)

(** The state of the program that the registry's operations read and write:
    the global counter [nextCallbackNum] and the registry's [queue] (its
    mutex and condition variable hold no data). *)
Record State : Type := mkState {
  nextCallbackNum : Z;
  queue : list Callback
}.

(** [CallbackRegistry::CallbackRegistry()], in a program that has made no
    callback yet *)
Definition initial : State := mkState 0 [].

(** [condvar.timedwait] gives the registry's lock up, and other threads may
    [add] while the owner sleeps.  Those are calls of the overload for native
    functions, the only one allowed off the main thread; [now] is the clock
    as the call reads it. *)
Record AddCall : Type := mkAddCall {
  add_func : Z;
  add_data : Z;
  add_secs : Q;
  add_now : Timestamp
}.

(** What [wait] meets outside the registry: the clock, by the number of the
    reading; the calls of [add] by other threads during each
    [condvar.timedwait], by the number of the sleep; and whether
    [Rcpp::checkUserInterrupt] finds an interrupt pending after it. *)
Record Env : Type := mkEnv {
  clock : nat → Timestamp;
  producers : nat → list AddCall;
  interrupt : nat → bool
}.

(** What [wait] does to the world, in order. *)
Inductive Event : Type :=
| TimedWait (waitFor : Q)
| CheckUserInterrupt.

(** The state of a call of [wait]: the program's state, how many times the
    clock was read, how many times the thread slept, and what it did. *)
Record WaitState : Type := mkWaitState {
  program : State;
  reads : nat;
  sleeps : nat;
  trace : list Event
}.

Module CallbackRegistry.

(** [void CallbackRegistry::add(Rcpp::Function func, double secs)];
    [condvar.signal()] changes no data: it ends a sleep of [wait], which in
    the model may end at any time. *)
Definition add_Rcpp (func : Z) (secs : Q) (now : Timestamp) (s : State) : State :=
  let when := Timestamp_after now secs in
  let '(cb, next) := new_Callback when (RcppFunction func) (nextCallbackNum s) in
  mkState next (priority_queue.push cb (queue s)).

(** [void CallbackRegistry::add(void (*func)(void*), void* data, double secs)] *)
Definition add (func data : Z) (secs : Q) (now : Timestamp) (s : State) : State :=
  let when := Timestamp_after now secs in
  let '(cb, next) := new_Callback when (BoostFunction func data) (nextCallbackNum s) in
  mkState next (priority_queue.push cb (queue s)).

(** [Optional<Timestamp> CallbackRegistry::nextTimestamp() const] *)
Definition nextTimestamp (q : list Callback) : Result (option Timestamp) :=
  if priority_queue.empty q then Ok None
  else cb ← priority_queue.top q; Ok (Some (when cb)).

(** [bool CallbackRegistry::empty() const] *)
Definition empty (q : list Callback) : bool := priority_queue.empty q.

(** [bool CallbackRegistry::due(const Timestamp& time) const]; the right
    operand of [&&] is evaluated only when the left one holds. *)
Definition due (q : list Callback) (time : Timestamp) : Result bool :=
  if negb (priority_queue.empty q)
  then cb ← priority_queue.top q; Ok (negb (Qgtb (when cb) time))
  else Ok false.

(** The loop of [take]; each turn pops one callback, so the length of the
    queue is fuel enough. *)
Fixpoint take_loop (fuel : nat) (max : N) (time : Timestamp)
    (q results : list Callback) : Result (list Callback * list Callback) :=
  d ← due q time;
  if d && ((max <=? 0)%N || (N.of_nat (length results) <? max)%N) then
    match fuel with
    | 0 => Err OutOfFuel
    | S fuel' =>
        cb ← priority_queue.top q;
        q' ← priority_queue.pop q;
        take_loop fuel' max time q' (results ++ [cb])
    end
  else Ok (results, q).

(** [std::vector<Callback_sp> CallbackRegistry::take(size_t max, const
    Timestamp& time)]: the callbacks taken and the queue left. *)
Definition take (max : N) (time : Timestamp) (q : list Callback)
  : Result (list Callback * list Callback) :=
  take_loop (length q) max time q [].

(** [Timestamp()]: the next reading of the clock *)
Definition now (env : Env) (w : WaitState) : Timestamp * WaitState :=
  (clock env (reads w),
   mkWaitState (program w) (S (reads w)) (sleeps w) (trace w)).

(** What the other threads do to the program during one sleep *)
Definition produce (calls : list AddCall) (s : State) : State :=
  foldl (λ s c, add (add_func c) (add_data c) (add_secs c) (add_now c) s) s calls.

(** [condvar.timedwait(waitFor)] *)
Definition timedwait (env : Env) (waitFor : Q) (w : WaitState) : WaitState :=
  mkWaitState (produce (producers env (sleeps w)) (program w))
    (reads w) (S (sleeps w)) (trace w ++ [TimedWait waitFor]).

(** [Rcpp::checkUserInterrupt()], after the sleep numbered [sleeps w - 1] *)
Definition checkUserInterrupt (env : Env) (w : WaitState) : Result unit * WaitState :=
  let w' := mkWaitState (program w) (reads w) (sleeps w) (trace w ++ [CheckUserInterrupt]) in
  (if interrupt env (sleeps w - 1) then Err UserInterrupt else Ok (), w').

(** The [while (true)] loop of [wait]; [Ok] is its [break]. *)
Fixpoint wait_loop (fuel : nat) (env : Env) (expireTime : Timestamp)
    (w : WaitState) : Result unit * WaitState :=
  match fuel with
  | 0 => (Err OutOfFuel, w)
  | S fuel' =>
      match nextTimestamp (queue (program w)) with
      | Err e => (Err e, w)
      | Ok next =>
          let end_ :=
            match next with
            | Some t => if Qltb t expireTime then t else expireTime
            | None => expireTime
            end in
          let '(t, w) := now env w in
          let waitFor := diff_secs end_ t in
          if Qle_bool waitFor 0 then (Ok (), w)
          else
            let waitFor := if Qgtb waitFor 2 then 2%Q else waitFor in
            let w := timedwait env waitFor w in
            match checkUserInterrupt env w with
            | (Err e, w) => (Err e, w)
            | (Ok _, w) => wait_loop fuel' env expireTime w
            end
      end
  end.

(** The first statement of [wait]: a negative timeout stands for a
    thousand years. *)
Definition timeout (timeoutSecs : Q) : Q :=
  if Qltb timeoutSecs 0 then 3e10%Q else timeoutSecs.

(** [Timestamp expireTime(timeoutSecs)], after that statement *)
Definition expireTime (t : Timestamp) (timeoutSecs : Q) : Timestamp :=
  Timestamp_after t (timeout timeoutSecs).

(** [bool CallbackRegistry::wait(double timeoutSecs) const]; it ends with
    [due()], whose argument defaults to [Timestamp()], the clock's reading
    at that call (the spec has "return isDue(now)"). *)
Definition wait (fuel : nat) (env : Env) (timeoutSecs : Q) (w : WaitState)
  : Result bool * WaitState :=
  let '(t, w) := now env w in
  match wait_loop fuel env (expireTime t timeoutSecs) w with
  | (Err e, w) => (Err e, w)
  | (Ok _, w) =>
      let '(t, w) := now env w in
      (due (queue (program w)) t, w)
  end.

(** The loop of [list] over its copy of the queue; the clock is read once
    for each representation. *)
Fixpoint list_loop (fuel : nat) (clock : nat → Timestamp)
    (temp_queue : Datatypes.list Callback)
    (results : Datatypes.list Representation)
  : Result (Datatypes.list Representation) :=
  if negb (priority_queue.empty temp_queue) then
    match fuel with
    | 0 => Err OutOfFuel
    | S fuel' =>
        cb ← priority_queue.top temp_queue;
        let results := results ++ [rRepresentation cb (clock (length results))] in
        temp_queue ← priority_queue.pop temp_queue;
        list_loop fuel' clock temp_queue results
    end
  else Ok results.

(** [Rcpp::List CallbackRegistry::list() const]: what it returns and the
    state it leaves. *)
Definition list (clock : nat → Timestamp) (s : State)
  : Result (Datatypes.list Representation) * State :=
  let temp_queue := queue s in
  (list_loop (length temp_queue) clock temp_queue [], s).

End CallbackRegistry.

(** The program after the other threads' calls of [add] during the [n]
    sleeps numbered from [from] on *)
Fixpoint produced (env : Env) (from n : nat) (s : State) : State :=
  match n with
  | 0 => s
  | S n' =>
      produced env (S from) n' (CallbackRegistry.produce (producers env from) s)
  end.

(** One turn of the loop of [wait] that does not leave it, as events: a
    sleep and the check for an interrupt after it *)
Definition turns (waits : list Q) : list Event :=
  flat_map (λ waitFor, [TimedWait waitFor; CheckUserInterrupt]) waits.

(** The states of the program that the registry's operations lead to: a
    new registry, whatever the counter, then any calls of [add] and [take]
    ([wait] and [list] change nothing themselves). *)
Inductive reachable : State → Prop :=
| reachable_new (nextCallbackNum : Z) :
    reachable (mkState nextCallbackNum [])
| reachable_add_Rcpp (func : Z) (secs : Q) (now : Timestamp) (s : State) :
    reachable s → reachable (CallbackRegistry.add_Rcpp func secs now s)
| reachable_add (func data : Z) (secs : Q) (now : Timestamp) (s : State) :
    reachable s → reachable (CallbackRegistry.add func data secs now s)
| reachable_take (max : N) (time : Timestamp) (s : State)
    (results q' : list Callback) :
    reachable s →
    CallbackRegistry.take max time (queue s) = Ok (results, q') →
    reachable (mkState (nextCallbackNum s) q').

(** The states that a program reaches with one registry from its start,
    as long as the counter has not gone around 2^64. *)
Inductive numbered : State → Prop :=
| numbered_initial : numbered initial
| numbered_add_Rcpp (func : Z) (secs : Q) (now : Timestamp) (s : State) :
    numbered s → (nextCallbackNum s + 1 < uint64_modulus)%Z →
    numbered (CallbackRegistry.add_Rcpp func secs now s)
| numbered_add (func data : Z) (secs : Q) (now : Timestamp) (s : State) :
    numbered s → (nextCallbackNum s + 1 < uint64_modulus)%Z →
    numbered (CallbackRegistry.add func data secs now s)
| numbered_take (max : N) (time : Timestamp) (s : State)
    (results q' : list Callback) :
    numbered s →
    CallbackRegistry.take max time (queue s) = Ok (results, q') →
    numbered (mkState (nextCallbackNum s) q').





(** ** The test of the order

    [testCallbackOrdering] makes a hundred callbacks for one and the same
    time and compares each with the one made before it. *)

(** The first loop: [n] callbacks for the time [ts], in the order in which
    they are made, and the counter after them *)
Fixpoint make_callbacks (n : nat) (ts : Timestamp) (func : Work)
    (nextCallbackNum : Z) : list Callback * Z :=
  match n with
  | 0 => ([], nextCallbackNum)
  | S n' =>
      let '(cb, next) := new_Callback ts func nextCallbackNum in
      let '(callbacks, next) := make_callbacks n' ts func next in
      (cb :: callbacks, next)
  end.

(** The body of the second loop: the message of [Rf_error], if one of its
    four checks fails at [i] *)
Definition check_neighbours (callbacks : list Callback) (i : nat) : option string :=
  match callbacks !! i, callbacks !! (i - 1) with
  | Some cur, Some prev =>
      if cb_lt cur prev then Some "Callback ordering is broken [1]"
      else if negb (cb_gt cur prev) then Some "Callback ordering is broken [2]"
      else if cb_gt prev cur then Some "Callback ordering is broken [3]"
      else if negb (cb_lt prev cur) then Some "Callback ordering is broken [4]"
      else None
  | _, _ => None
  end.

(** The body of the third loop *)
Definition check_backwards (callbacks : list Callback) (i : nat) : option string :=
  match callbacks !! (i - 1), callbacks !! (i - 2) with
  | Some cur, Some prev =>
      if cb_lt cur prev then Some "Callback ordering is broken [2]" else None
  | _, _ => None
  end.

(** A loop of checks stops at the first [Rf_error]. *)
Fixpoint first_error (check : nat → option string) (indices : list nat)
  : option string :=
  match indices with
  | [] => None
  | i :: rest =>
      match check i with
      | Some e => Some e
      | None => first_error check rest
      end
  end.

(** [void testCallbackOrdering()]: the error it stops with, if any, and the
    counter after it; [ts] is the reading of the clock. *)
Definition testCallbackOrdering (ts : Timestamp) (nextCallbackNum : Z)
  : option string * Z :=
  let '(callbacks, next) :=
    make_callbacks 100 ts (BoostFunction 0 0) nextCallbackNum in
  (match first_error (check_neighbours callbacks) (seq 1 99) with
   | Some e => Some e
   | None => first_error (check_backwards callbacks) (rev (seq 2 99))
   end, next).

(** ** Examples *)

(** The scenario of the spec's tests: four native callbacks added at [T0]
    with delays of 0, 5, 5 and 1 seconds. *)
Definition scenario (T0 : Timestamp) : State :=
  CallbackRegistry.add 13 0 1%Q T0
    (CallbackRegistry.add 12 0 5%Q T0
       (CallbackRegistry.add 11 0 5%Q T0
          (CallbackRegistry.add 10 0 0%Q T0 initial))).

(** A clock that is one second further at each reading *)
Definition ticking (T0 : Timestamp) (n : nat) : Timestamp :=
  (T0 + inject_Z (Z.of_nat n))%Q.

(** An environment with that clock from time 100 on, in which another
    thread adds a callback, due a second and a half after 103, during the
    second sleep, and in which the check after the sleep numbered
    [interrupt_at] finds an interrupt. *)
Definition busy (interrupt_at : option nat) : Env :=
  mkEnv (ticking 100%Q)
    (λ k, if k =? 1 then [mkAddCall 20 0 (3 # 2)%Q 103%Q] else [])
    (λ k, match interrupt_at with Some n => k =? n | None => false end).

(** [wait] has not started. *)
Definition idle (s : State) : WaitState := mkWaitState s 0 0 [].

(** A clock that is [step] seconds further after each sleep of [wait]: it
    reads [T0] when [wait] starts and at the first turn of its loop. *)
Definition stepping (T0 : Timestamp) (step : Q) (n : nat) : Timestamp :=
  (T0 + step * inject_Z (Z.of_nat (n - 1)))%Q.

(** An environment in which nothing happens but the clock *)
Definition alone (clock : nat → Timestamp) : Env :=
  mkEnv clock (λ _, []) (λ _, false).

(** ** Tactics *)

(** [transp i j k] is [i], [j] or [k]; the positions at hand tell which. *)
Ltac transp_at i j k :=
  first
    [ replace (transp i j k) with k by (unfold transp; repeat case_decide; lia)
    | replace (transp i j k) with j by (unfold transp; repeat case_decide; lia)
    | replace (transp i j k) with i by (unfold transp; repeat case_decide; lia) ].

Ltac transp_norm :=
  repeat match goal with
         | |- context [transp ?i ?j ?k] => transp_at i j k
         end.

(** * Facts *)

(** ** Positions in the heap *)

Lemma parent_lt (k : nat) : 0 < k → parent k < k.
Proof.
  intros Hk. unfold parent.
  pose proof (Nat.div_mod_eq (k - 1) 2) as Hd.
  pose proof (Nat.mod_upper_bound (k - 1) 2) as Hm. lia.
Qed.

Lemma parent_children (k i : nat) :
  0 < k → parent k = i ↔ k = 2 * i + 1 ∨ k = 2 * i + 2.
Proof.
  intros Hk. unfold parent.
  pose proof (Nat.div_mod_eq (k - 1) 2) as Hd.
  pose proof (Nat.mod_upper_bound (k - 1) 2) as Hm. lia.
Qed.

Section HeapFacts.
Context {A : Type}.
Variable comp : A → A → bool.

Implicit Types c : list A.

Lemma swap_length i j c : length (swap i j c) = length c.
Proof.
  unfold swap. destruct (c !! i), (c !! j); trivial.
  by rewrite !length_insert.
Qed.

Lemma swap_lookup i j k c :
  i < length c → j < length c → swap i j c !! k = c !! transp i j k.
Proof.
  intros Hi Hj. unfold swap, transp.
  destruct (lookup_lt_is_Some_2 c i Hi) as [x Hx].
  destruct (lookup_lt_is_Some_2 c j Hj) as [y Hy].
  rewrite Hx, Hy.
  destruct (decide (k = j)) as [->|Hkj].
  - rewrite list_lookup_insert_eq by (rewrite length_insert; lia).
    destruct (decide (j = i)) as [->|]; congruence.
  - rewrite list_lookup_insert_ne by congruence.
    destruct (decide (k = i)) as [->|Hki].
    + by rewrite list_lookup_insert_eq.
    + by rewrite list_lookup_insert_ne.
Qed.

Lemma swap_perm i j c : swap i j c ≡ₚ c.
Proof.
  unfold swap. destruct (c !! i) as [x|] eqn:Hx; trivial.
  destruct (c !! j) as [y|] eqn:Hy; trivial.
  by apply Permutation_insert_swap.
Qed.

Lemma comp_at_swap i j a b c :
  i < length c → j < length c →
  comp_at comp (swap i j c) a b = comp_at comp c (transp i j a) (transp i j b).
Proof. intros Hi Hj. unfold comp_at. by rewrite !swap_lookup. Qed.

Lemma comp_at_take n a b c :
  a < n → b < n → comp_at comp (take n c) a b = comp_at comp c a b.
Proof. intros Ha Hb. unfold comp_at. by rewrite !lookup_take_lt. Qed.

Lemma comp_at_app a b c c' :
  a < length c → b < length c →
  comp_at comp (c ++ c') a b = comp_at comp c a b.
Proof. intros Ha Hb. unfold comp_at. by rewrite !lookup_app_l. Qed.

Lemma sift_up_length fuel : ∀ i c, length (sift_up comp fuel i c) = length c.
Proof.
  induction fuel as [|fuel IH]; intros i c; simpl; trivial.
  destruct (_ && _); trivial. by rewrite IH, swap_length.
Qed.

Lemma sift_up_perm fuel : ∀ i c, sift_up comp fuel i c ≡ₚ c.
Proof.
  induction fuel as [|fuel IH]; intros i c; simpl; trivial.
  destruct (_ && _); trivial. by rewrite IH, swap_perm.
Qed.

Lemma sift_down_length fuel : ∀ n i c, length (sift_down comp fuel n i c) = length c.
Proof.
  induction fuel as [|fuel IH]; intros n i c; simpl; trivial.
  destruct (_ =? _); trivial. by rewrite IH, swap_length.
Qed.

Lemma sift_down_perm fuel : ∀ n i c, sift_down comp fuel n i c ≡ₚ c.
Proof.
  induction fuel as [|fuel IH]; intros n i c; simpl; trivial.
  destruct (_ =? _); trivial. by rewrite IH, swap_perm.
Qed.

Lemma top_of_three_range n i c :
  top_of_three comp n i c = i
  ∨ (i < top_of_three comp n i c < n ∧ parent (top_of_three comp n i c) = i).
Proof.
  unfold top_of_three.
  assert (Hch : ∀ k, k = 2 * i + 1 ∨ k = 2 * i + 2 → k < n →
                     i < k < n ∧ parent k = i).
  { intros k Hk Hn. split; [lia|]. apply parent_children; lia. }
  destruct (2 * i + 1 <? n) eqn:Hl, (2 * i + 2 <? n) eqn:Hr; simpl;
    rewrite ?Nat.ltb_lt in *;
    repeat match goal with
           | |- context [if ?b then _ else _] => destruct b
           end; auto.
Qed.

(** [sift_down] leaves what is behind the heap alone. *)
Lemma sift_down_lookup_ge fuel : ∀ n i c k,
  n ≤ length c → i < n → n ≤ k → sift_down comp fuel n i c !! k = c !! k.
Proof.
  induction fuel as [|fuel IH]; intros n i c k Hn Hi Hk; simpl; trivial.
  destruct (top_of_three_range n i c) as [->|[Hm _]].
  - by rewrite Nat.eqb_refl.
  - destruct (_ =? _); trivial.
    rewrite IH by (rewrite ?swap_length; lia).
    rewrite swap_lookup by lia. unfold transp.
    repeat case_decide; trivial; lia.
Qed.

(** The comparison is the converse of a strict weak order: it never holds
    both ways, and "not above" is transitive. *)
Hypothesis comp_asym : ∀ x y, comp x y = true → comp y x = false.
Hypothesis comp_trans : ∀ x y z, comp x y = false → comp y z = false → comp x z = false.

Lemma comp_at_asym i j c : comp_at comp c i j = true → comp_at comp c j i = false.
Proof.
  unfold comp_at. destruct (c !! i), (c !! j); auto.
Qed.

Lemma comp_at_trans i j k c :
  j < length c →
  comp_at comp c i j = false → comp_at comp c j k = false →
  comp_at comp c i k = false.
Proof.
  intros Hj. destruct (lookup_lt_is_Some_2 c j Hj) as [y Hy].
  unfold comp_at. rewrite Hy. destruct (c !! i), (c !! k); eauto.
Qed.

Lemma comp_at_irrefl i c : comp_at comp c i i = false.
Proof.
  destruct (comp_at comp c i i) eqn:H; trivial.
  by rewrite (comp_at_asym _ _ _ H) in H.
Qed.

(** Strictly above is transitive too. *)
Lemma comp_at_trans_strict i j k c :
  i < length c → k < length c →
  comp_at comp c i j = true → comp_at comp c j k = true →
  comp_at comp c i k = true.
Proof.
  intros Hi Hk Hij Hjk.
  destruct (comp_at comp c i k) eqn:Hik; trivial.
  apply comp_at_asym in Hij.
  rewrite (comp_at_trans j i k c) in Hjk; auto.
Qed.

Lemma sift_up_heap fuel : ∀ n i c,
  n ≤ length c → i < n → i ≤ fuel →
  sifting_up comp n i c → heap_upto comp n (sift_up comp fuel i c).
Proof.
  induction fuel as [|fuel IH]; intros n i c Hn Hi Hfuel [Hheap Hgrand]; simpl.
  { intros k Hk. apply Hheap; lia. }
  destruct (0 <? i) eqn:Hpos; simpl.
  2: { apply Nat.ltb_ge in Hpos. intros k Hk. apply Hheap; lia. }
  apply Nat.ltb_lt in Hpos.
  pose proof (parent_lt i Hpos) as Hp.
  destruct (comp_at comp c (parent i) i) eqn:Hcmp.
  2: { intros k Hk. destruct (decide (k = i)) as [->|]; auto. }
  apply IH; rewrite ?swap_length; try lia.
  pose proof (comp_at_asym _ _ _ Hcmp) as Hle.
  split.
  - intros k Hk Hne. rewrite comp_at_swap by lia.
    pose proof (parent_lt k ltac:(lia)) as Hpk.
    destruct (decide (k = i)) as [->|Hki].
    + unfold transp. repeat case_decide; try lia. exact Hle.
    + transp_norm.
      destruct (decide (parent k = parent i)) as [Heq|Hnp].
      * transp_norm.
        apply (comp_at_trans i (parent i) k); [lia|exact Hle|].
        rewrite <- Heq. apply Hheap; lia.
      * destruct (decide (parent k = i)) as [Heq|Hni].
        -- transp_norm.
           apply Hgrand; auto.
        -- transp_norm.
           apply Hheap; lia.
  - intros k Hk Hpar Hpp. rewrite comp_at_swap by lia.
    pose proof (parent_lt (parent i) Hpp) as Hppp.
    pose proof (parent_lt k ltac:(lia)) as Hpk.
    transp_norm.
    assert (Htop : comp_at comp c (parent (parent i)) (parent i) = false)
      by (apply Hheap; lia).
    destruct (decide (k = i)) as [->|Hki].
    + transp_norm.
      exact Htop.
    + transp_norm.
      apply (comp_at_trans _ (parent i) k); [lia|exact Htop|].
      rewrite <- Hpar. apply Hheap; lia.
Qed.

Lemma top_of_three_spec n i c :
  n ≤ length c → i < n →
  (top_of_three comp n i c = i
   ∧ ∀ k, 0 < k < n → parent k = i → comp_at comp c i k = false)
  ∨ (i < top_of_three comp n i c < n
     ∧ parent (top_of_three comp n i c) = i
     ∧ comp_at comp c i (top_of_three comp n i c) = true
     ∧ ∀ k, 0 < k < n → parent k = i → k ≠ top_of_three comp n i c →
            comp_at comp c (top_of_three comp n i c) k = false).
Proof.
  intros Hn Hi. unfold top_of_three.
  assert (Hpl : parent (2 * i + 1) = i) by (apply parent_children; lia).
  assert (Hpr : parent (2 * i + 2) = i) by (apply parent_children; lia).
  assert (Hkids : ∀ k, 0 < k → parent k = i → k = 2 * i + 1 ∨ k = 2 * i + 2)
    by (intros k Hk; by apply parent_children).
  destruct ((2 * i + 1 <? n) && comp_at comp c i (2 * i + 1)) eqn:Hl.
  - apply andb_true_iff in Hl as [Hl Hcl]. apply Nat.ltb_lt in Hl.
    destruct ((2 * i + 2 <? n) && comp_at comp c (2 * i + 1) (2 * i + 2)) eqn:Hr.
    + apply andb_true_iff in Hr as [Hr Hcr]. apply Nat.ltb_lt in Hr.
      right. repeat split; try lia; trivial.
      * apply (comp_at_trans_strict i (2 * i + 1)); trivial; lia.
      * intros k Hk Hpar Hne.
        destruct (Hkids k ltac:(lia) Hpar) as [->| ->]; [|done].
        by apply comp_at_asym.
    + right. repeat split; try lia; trivial.
      intros k Hk Hpar Hne.
      destruct (Hkids k ltac:(lia) Hpar) as [->| ->]; [done|].
      apply andb_false_iff in Hr as [Hr|Hr]; trivial.
      apply Nat.ltb_ge in Hr. lia.
  - assert (Hl' : 2 * i + 1 < n → comp_at comp c i (2 * i + 1) = false).
    { intros Hlt. apply andb_false_iff in Hl as [Hl|Hl]; trivial.
      apply Nat.ltb_ge in Hl. lia. }
    destruct ((2 * i + 2 <? n) && comp_at comp c i (2 * i + 2)) eqn:Hr.
    + apply andb_true_iff in Hr as [Hr Hcr]. apply Nat.ltb_lt in Hr.
      right. repeat split; try lia; trivial.
      intros k Hk Hpar Hne.
      destruct (Hkids k ltac:(lia) Hpar) as [->| ->]; [|done].
      apply (comp_at_trans _ i); [lia| |apply Hl'; lia].
      by apply comp_at_asym.
    + left. split; trivial.
      intros k Hk Hpar.
      destruct (Hkids k ltac:(lia) Hpar) as [->| ->]; [apply Hl'; lia|].
      apply andb_false_iff in Hr as [Hr|Hr]; trivial.
      apply Nat.ltb_ge in Hr. lia.
Qed.

Lemma sift_down_heap fuel : ∀ n i c,
  n ≤ length c → n ≤ fuel + i →
  sifting_down comp n i c → heap_upto comp n (sift_down comp fuel n i c).
Proof.
  induction fuel as [|fuel IH]; intros n i c Hn Hfuel [Hheap Hgrand]; simpl.
  { intros k Hk. apply Hheap; trivial.
    pose proof (parent_lt k ltac:(lia)). lia. }
  destruct (decide (i < n)) as [Hi|Hi].
  2: { destruct (top_of_three_range n i c) as [->|[? _]]; [|lia].
       rewrite Nat.eqb_refl. intros k Hk. apply Hheap; trivial.
       pose proof (parent_lt k ltac:(lia)). lia. }
  destruct (top_of_three_spec n i c Hn Hi)
    as [[-> Hkids]|(Hm & Hpm & Hcmp & Hsib)].
  { rewrite Nat.eqb_refl. intros k Hk.
    destruct (decide (parent k = i)) as [<-|]; auto. }
  set (m := top_of_three comp n i c) in *.
  destruct (m =? i) eqn:Hmi; [apply Nat.eqb_eq in Hmi; lia|].
  apply IH; rewrite ?swap_length; try lia.
  pose proof (comp_at_asym _ _ _ Hcmp) as Hle.
  split.
  - intros k Hk Hne. rewrite comp_at_swap by lia.
    pose proof (parent_lt k ltac:(lia)) as Hpk.
    destruct (decide (k = i)) as [->|Hki].
    + transp_norm.
      apply Hgrand; lia.
    + destruct (decide (k = m)) as [->|Hkm].
      * rewrite Hpm.
        transp_norm.
        exact Hle.
      * transp_norm.
        destruct (decide (parent k = i)) as [Heq|Hnp].
        -- rewrite Heq.
           transp_norm.
           apply Hsib; trivial.
        -- transp_norm.
           apply Hheap; trivial.
  - intros k Hk Hpar Hpos. rewrite comp_at_swap by lia.
    pose proof (parent_lt k ltac:(lia)) as Hpk.
    rewrite Hpm.
    transp_norm.
    rewrite <- Hpar. apply Hheap; lia.
Qed.

(** The first element of a heap is above no other. *)
Lemma heap_upto_min n c :
  n ≤ length c → heap_upto comp n c → ∀ k, k < n → comp_at comp c 0 k = false.
Proof.
  intros Hn Hheap k. induction (lt_wf k) as [k _ IH]. intros Hk.
  destruct (decide (k = 0)) as [->|Hpos]; [apply comp_at_irrefl|].
  pose proof (parent_lt k ltac:(lia)) as Hp.
  apply (comp_at_trans 0 (parent k) k); [lia|apply IH; lia|apply Hheap; lia].
Qed.

Lemma is_heapb_spec c : is_heapb comp c = true ↔ heap_upto comp (length c) c.
Proof.
  unfold is_heapb, heap_upto. rewrite forallb_forall. split.
  - intros H k Hk. apply negb_true_iff, H, in_seq. lia.
  - intros H k Hk%in_seq. apply negb_true_iff, H. lia.
Qed.

Lemma push_heap_length c : length (push_heap comp c) = length c.
Proof. apply sift_up_length. Qed.

Lemma push_heap_perm c : push_heap comp c ≡ₚ c.
Proof. apply sift_up_perm. Qed.

Lemma push_heap_heap x c :
  heap_upto comp (length c) c →
  heap_upto comp (S (length c)) (push_heap comp (c ++ [x])).
Proof.
  intros Hheap. unfold push_heap.
  assert (Hlen : length (c ++ [x]) = S (length c))
    by (rewrite length_app; simpl; lia).
  rewrite Hlen. apply sift_up_heap; try lia.
  split.
  - intros k Hk Hne. pose proof (parent_lt k ltac:(lia)).
    rewrite comp_at_app by lia. apply Hheap. lia.
  - intros k Hk Hpar. pose proof (parent_lt k ltac:(lia)). lia.
Qed.

Lemma pop_heap_length c : length (pop_heap comp c) = length c.
Proof.
  unfold pop_heap. destruct (1 <? length c); trivial.
  by rewrite sift_down_length, swap_length.
Qed.

Lemma pop_heap_perm c : pop_heap comp c ≡ₚ c.
Proof.
  unfold pop_heap. destruct (1 <? length c); trivial.
  by rewrite sift_down_perm, swap_perm.
Qed.

Lemma pop_heap_heap c :
  heap_upto comp (length c) c →
  heap_upto comp (length c - 1) (pop_heap comp c).
Proof.
  intros Hheap. unfold pop_heap.
  destruct (1 <? length c) eqn:Hlen.
  2: { apply Nat.ltb_ge in Hlen. intros k Hk. lia. }
  apply Nat.ltb_lt in Hlen.
  apply sift_down_heap; rewrite ?swap_length; try lia.
  split; [|lia].
  intros k Hk Hne. pose proof (parent_lt k ltac:(lia)).
  rewrite comp_at_swap by lia.
  transp_norm.
  apply Hheap. lia.
Qed.

(** [pop_heap] leaves the first element at the back. *)
Lemma pop_heap_back x c :
  c !! 0 = Some x → pop_heap comp c !! (length c - 1) = Some x.
Proof.
  intros Hx. pose proof (lookup_lt_Some _ _ _ Hx) as Hlen.
  unfold pop_heap. destruct (1 <? length c) eqn:Hlt.
  - apply Nat.ltb_lt in Hlt.
    rewrite sift_down_lookup_ge by (rewrite ?swap_length; lia).
    rewrite swap_lookup by lia.
    transp_norm.
    exact Hx.
  - apply Nat.ltb_ge in Hlt.
    by replace (length c - 1) with 0 by lia.
Qed.

End HeapFacts.

(** ** The order of callbacks *)

Lemma Qltb_lt (a b : Q) : Qltb a b = true ↔ (a < b)%Q.
Proof.
  unfold Qltb. rewrite negb_true_iff. split.
  - intros H. apply Qnot_le_lt. intros Hle%Qle_bool_iff. congruence.
  - intros H. destruct (Qle_bool b a) eqn:E; trivial.
    apply Qle_bool_iff in E. lra.
Qed.

Lemma Qltb_ge (a b : Q) : Qltb a b = false ↔ (b <= a)%Q.
Proof.
  unfold Qltb. rewrite negb_false_iff. apply Qle_bool_iff.
Qed.

Lemma cb_lt_spec (a b : Callback) :
  cb_lt a b = true ↔
  (when a < when b)%Q
  ∨ ((when a == when b)%Q ∧ (callbackNum a < callbackNum b)%Z).
Proof.
  unfold cb_lt.
  rewrite orb_true_iff, andb_true_iff, Qltb_lt, Qeq_bool_iff, Z.ltb_lt.
  reflexivity.
Qed.

Lemma cb_le_spec (a b : Callback) : cb_le a b ↔ in_order a b.
Proof.
  unfold cb_le, cb_gt, in_order. split.
  - intros H.
    destruct (Qlt_le_dec (when a) (when b)) as [Hlt|Hge]; [by left|right].
    destruct (Qlt_le_dec (when b) (when a)) as [Hlt|Hle].
    + assert (cb_lt b a = true) by (apply cb_lt_spec; by left). congruence.
    + assert (Heq : (when a == when b)%Q) by lra. split; trivial.
      destruct (Z_lt_le_dec (callbackNum b) (callbackNum a)) as [Hn|]; trivial.
      assert (cb_lt b a = true); [|congruence].
      apply cb_lt_spec. right. split; [lra|trivial].
  - intros H. destruct (cb_lt b a) eqn:E; trivial.
    apply cb_lt_spec in E. destruct H as [?|[? ?]], E as [?|[? ?]]; try lra. lia.
Qed.

Lemma cb_le_when (a b : Callback) : cb_le a b → (when a <= when b)%Q.
Proof. intros [?|[? _]]%cb_le_spec; lra. Qed.

Lemma pointer_greater_than_asym (x y : Callback) :
  pointer_greater_than x y = true → pointer_greater_than y x = false.
Proof.
  unfold pointer_greater_than, cb_gt. intros H%cb_lt_spec.
  destruct (cb_lt x y) eqn:E; trivial. apply cb_lt_spec in E.
  destruct H as [?|[? ?]], E as [?|[? ?]]; try lra. lia.
Qed.

Lemma pointer_greater_than_trans (x y z : Callback) :
  pointer_greater_than x y = false → pointer_greater_than y z = false →
  pointer_greater_than x z = false.
Proof.
  intros Hxy Hyz.
  change (cb_le x y) in Hxy. change (cb_le y z) in Hyz. change (cb_le x z).
  apply cb_le_spec in Hxy, Hyz. apply cb_le_spec.
  destruct Hxy as [?|[? ?]], Hyz as [?|[? ?]];
    [left; lra|left; lra|left; lra|right; split; [lra|lia]].
Qed.

(** ** The priority queue *)

Lemma is_heap_spec (c : list Callback) :
  is_heap c ↔ heap_upto pointer_greater_than (length c) c.
Proof. apply is_heapb_spec. Qed.

Lemma is_heap_nil : is_heap [].
Proof. reflexivity. Qed.

Lemma push_perm (x : Callback) (c : list Callback) :
  priority_queue.push x c ≡ₚ x :: c.
Proof.
  unfold priority_queue.push. rewrite push_heap_perm.
  by rewrite Permutation_app_comm.
Qed.

Lemma push_is_heap (x : Callback) (c : list Callback) :
  is_heap c → is_heap (priority_queue.push x c).
Proof.
  rewrite !is_heap_spec. intros H. unfold priority_queue.push.
  rewrite push_heap_length, length_app. simpl.
  replace (length c + 1) with (S (length c)) by lia.
  apply push_heap_heap; trivial.
  - apply pointer_greater_than_asym.
  - apply pointer_greater_than_trans.
Qed.

(** The queue has a top and can be popped exactly when it is not empty;
    popping removes the top and keeps the heap. *)
Lemma pop_cons (x : Callback) (c : list Callback) :
  ∃ c', priority_queue.pop (x :: c) = Ok c'
        ∧ c' ≡ₚ c
        ∧ (is_heap (x :: c) → is_heap c').
Proof.
  unfold priority_queue.pop.
  replace (length (x :: c) - 1) with (length c) by (simpl; lia).
  eexists. split; [reflexivity|].
  pose proof (pop_heap_length pointer_greater_than (x :: c)) as Hlen.
  pose proof (pop_heap_back pointer_greater_than x (x :: c) eq_refl) as Hback.
  pose proof (pop_heap_perm pointer_greater_than (x :: c)) as Hperm.
  pose proof (pop_heap_heap pointer_greater_than
                pointer_greater_than_asym pointer_greater_than_trans
                (x :: c)) as Hheap.
  replace (length (x :: c) - 1) with (length c) in * by (simpl; lia).
  simpl length in Hlen.
  set (l := pop_heap pointer_greater_than (x :: c)) in *.
  split.
  - apply (Permutation_cons_inv (a := x)).
    transitivity l; [|exact Hperm].
    assert (Hl : l = take (length c) l ++ [x]).
    { rewrite <- (take_S_r l (length c) x Hback), <- Hlen.
      symmetry. apply firstn_all. }
    rewrite Hl at 2. by rewrite Permutation_app_comm.
  - rewrite !is_heap_spec. intros H.
    rewrite length_take, Hlen, Nat.min_l by lia.
    intros k Hk. pose proof (parent_lt k ltac:(lia)).
    rewrite comp_at_take by lia. by apply Hheap.
Qed.

(** The top of the queue is the least callback in it. *)
Lemma top_least (x : Callback) (c : list Callback) :
  is_heap (x :: c) → Forall (cb_le x) (x :: c).
Proof.
  rewrite is_heap_spec. intros Hheap.
  apply Forall_lookup. intros k y Hy.
  pose proof (lookup_lt_Some _ _ _ Hy) as Hk.
  pose proof (heap_upto_min pointer_greater_than
                pointer_greater_than_asym pointer_greater_than_trans
                _ _ (Nat.le_refl _) Hheap k Hk) as H.
  unfold comp_at in H. rewrite Hy in H. exact H.
Qed.

(** ** The queries and [take] *)

Lemma due_nil (T : Timestamp) : CallbackRegistry.due [] T = Ok false.
Proof. reflexivity. Qed.

Lemma due_cons (x : Callback) (c : list Callback) (T : Timestamp) :
  CallbackRegistry.due (x :: c) T = Ok (Qle_bool (when x) T).
Proof.
  unfold CallbackRegistry.due, Qgtb, Qltb. simpl.
  by rewrite negb_involutive.
Qed.

Lemma due_total (q : list Callback) (T : Timestamp) :
  ∃ b, CallbackRegistry.due q T = Ok b.
Proof. destruct q; [rewrite due_nil|rewrite due_cons]; eauto. Qed.

(** In a heap, [due] tells whether some callback of the queue is due. *)
Lemma due_true_iff (q : list Callback) (T : Timestamp) :
  is_heap q →
  CallbackRegistry.due q T = Ok true ↔ ∃ cb, cb ∈ q ∧ (when cb <= T)%Q.
Proof.
  intros Hheap. destruct q as [|x c].
  - rewrite due_nil. split; [discriminate|].
    intros (cb & Hin & _). by apply elem_of_nil in Hin.
  - rewrite due_cons. split.
    + intros [= H%Qle_bool_iff]. exists x. split; [apply list_elem_of_here|trivial].
    + intros (cb & Hin & Hle). f_equal. apply Qle_bool_iff.
      pose proof (top_least x c Hheap) as Hmin.
      rewrite Forall_forall in Hmin. apply Hmin, cb_le_when in Hin. lra.
Qed.

Lemma due_false_all (q : list Callback) (T : Timestamp) :
  is_heap q →
  CallbackRegistry.due q T = Ok false → Forall (λ cb, (T < when cb)%Q) q.
Proof.
  intros Hheap. destruct q as [|x c]; [constructor|].
  rewrite due_cons. intros [= H].
  assert (Hx : (T < when x)%Q).
  { apply Qnot_le_lt. intros Hle%Qle_bool_iff. congruence. }
  eapply Forall_impl; [apply (top_least x c Hheap)|].
  intros y Hy%cb_le_when. simpl. lra.
Qed.

(** One turn of the loop of [take] *)
Lemma take_loop_unfold fuel max T q results :
  CallbackRegistry.take_loop fuel max T q results =
  match q with
  | [] => Ok (results, [])
  | x :: c =>
      if Qle_bool (when x) T
         && ((max <=? 0)%N || (N.of_nat (length results) <? max)%N)
      then
        match fuel with
        | 0 => Err OutOfFuel
        | S fuel' =>
            match priority_queue.pop (x :: c) with
            | Ok q' => CallbackRegistry.take_loop fuel' max T q' (results ++ [x])
            | Err e => Err e
            end
        end
      else Ok (results, x :: c)
  end.
Proof.
  destruct fuel, q as [|x c]; try reflexivity;
    simpl; unfold Qgtb, Qltb; rewrite negb_involutive; reflexivity.
Qed.

(** What the loop of [take] does, from any state of the loop: it never
    stops on an error; it splits the queue into what it takes and what it
    leaves; what it takes is due; it takes no more than [max] allows; and it
    stops only when nothing is due or [max] is reached.  On a heap, it
    leaves a heap and takes the callbacks in their order, each of them
    before all that are left. *)
Lemma take_loop_spec fuel : ∀ max T q results,
  length q ≤ fuel →
  ∃ taken q',
    CallbackRegistry.take_loop fuel max T q results = Ok (results ++ taken, q')
    ∧ taken ++ q' ≡ₚ q
    ∧ Forall (λ cb, (when cb <= T)%Q) taken
    ∧ ((0 < max)%N → (N.of_nat (length results) <= max)%N →
       (N.of_nat (length (results ++ taken)) <= max)%N)
    ∧ (CallbackRegistry.due q' T = Ok false
       ∨ ((0 < max)%N ∧ (max <= N.of_nat (length (results ++ taken)))%N))
    ∧ (is_heap q →
       is_heap q'
       ∧ StronglySorted cb_le taken
       ∧ Forall (λ a, Forall (cb_le a) q') taken).
Proof.
  assert (Hnone : ∀ max T q results,
    CallbackRegistry.due q T = Ok false
    ∨ ((0 < max)%N ∧ (max <= N.of_nat (length results))%N) →
    ∃ taken q',
      Ok (results, q) = Ok (results ++ taken, q')
      ∧ taken ++ q' ≡ₚ q
      ∧ Forall (λ cb, (when cb <= T)%Q) taken
      ∧ ((0 < max)%N → (N.of_nat (length results) <= max)%N →
         (N.of_nat (length (results ++ taken)) <= max)%N)
      ∧ (CallbackRegistry.due q' T = Ok false
         ∨ ((0 < max)%N ∧ (max <= N.of_nat (length (results ++ taken)))%N))
      ∧ (is_heap q →
         is_heap q'
         ∧ StronglySorted cb_le taken
         ∧ Forall (λ a, Forall (cb_le a) q') taken)).
  { intros max T q results Hstop. exists [], q. rewrite app_nil_r.
    split; [reflexivity|]. split; [reflexivity|]. split; [constructor|].
    split; [auto|]. split; [exact Hstop|].
    intros Hq. split; [exact Hq|]. split; constructor. }
  induction fuel as [|fuel IH]; intros max T q results Hfuel;
    rewrite take_loop_unfold.
  - destruct q; [|simpl in Hfuel; lia].
    apply Hnone. left. apply due_nil.
  - destruct q as [|x c].
    { apply Hnone. left. apply due_nil. }
    destruct (Qle_bool (when x) T
              && ((max <=? 0)%N || (N.of_nat (length results) <? max)%N))
      eqn:Hcond.
    2: { apply Hnone. apply andb_false_iff in Hcond as [Hdue|Hmax].
         - left. by rewrite due_cons, Hdue.
         - right. apply orb_false_iff in Hmax as [H0%N.leb_gt Hn%N.ltb_ge].
           auto. }
    apply andb_true_iff in Hcond as [Hdue Hmax].
    destruct (pop_cons x c) as (c' & -> & Hperm & Hheap).
    destruct (IH max T c' (results ++ [x])) as (taken & q' & -> & Hsplit & Htaken & Hcount & Hstop & Hsorted).
    { rewrite Hperm. simpl in Hfuel. lia. }
    exists (x :: taken), q'.
    replace (results ++ x :: taken) with ((results ++ [x]) ++ taken)
      by (by rewrite <- app_assoc).
    split; [reflexivity|]. split; [|split; [|split; [|split]]].
    + simpl. by rewrite Hsplit, Hperm.
    + constructor; trivial. by apply Qle_bool_iff.
    + intros Hpos Hlen. apply Hcount; trivial.
      rewrite length_app. simpl.
      apply orb_true_iff in Hmax as [H0%N.leb_le|Hn%N.ltb_lt]; lia.
    + exact Hstop.
    + intros Hq. destruct (Hsorted (Hheap Hq)) as (Hq' & Hsort & Hbefore).
      assert (Hx : Forall (cb_le x) (taken ++ q')).
      { rewrite Hsplit, Hperm.
        pose proof (top_least x c Hq) as Hmin. by inversion Hmin. }
      apply Forall_app in Hx as [Hxt Hxq].
      repeat split; trivial; by constructor.
Qed.

Lemma StronglySorted_lookup_lt {A : Type} (R : A → A → Prop) (l : list A) :
  StronglySorted R l →
  ∀ i j a b, l !! i = Some a → l !! j = Some b → i < j → R a b.
Proof.
  induction 1 as [|x l _ IH Hx]; intros i j a b Ha Hb Hij; [done|].
  destruct j as [|j]; [lia|]. simpl in Hb.
  destruct i as [|i].
  - injection Ha as <-. rewrite Forall_forall in Hx.
    apply Hx, list_elem_of_lookup. eauto.
  - simpl in Ha. apply (IH i j); trivial. lia.
Qed.

Lemma StronglySorted_weaken {A : Type} (R R' : A → A → Prop) (l : list A) :
  (∀ a b, R a b → R' a b) → StronglySorted R l → StronglySorted R' l.
Proof.
  intros HR. induction 1 as [|x l _ IH Hx]; constructor; trivial.
  eapply Forall_impl; [exact Hx|]. apply HR.
Qed.

(** [take] as a whole: [take_loop_spec] from the start of the loop *)
Lemma take_spec (max : N) (T : Timestamp) (q : list Callback) :
  ∃ results q',
    CallbackRegistry.take max T q = Ok (results, q')
    ∧ results ++ q' ≡ₚ q
    ∧ Forall (λ cb, (when cb <= T)%Q) results
    ∧ ((0 < max)%N → (N.of_nat (length results) <= max)%N)
    ∧ (CallbackRegistry.due q' T = Ok false
       ∨ ((0 < max)%N ∧ (max <= N.of_nat (length results))%N))
    ∧ (is_heap q →
       is_heap q'
       ∧ StronglySorted cb_le results
       ∧ Forall (λ a, Forall (cb_le a) q') results).
Proof.
  destruct (take_loop_spec (length q) max T q [] (Nat.le_refl _))
    as (taken & q' & Htake & Hsplit & Hdue & Hcount & Hstop & Hheap).
  exists taken, q'. simpl in *.
  split; [exact Htake|]. split; [exact Hsplit|]. split; [exact Hdue|].
  split; [|split; [exact Hstop|exact Hheap]].
  intros Hpos. apply Hcount; [trivial|lia].
Qed.

(** C2: on a heap, [take(0, T)] splits the queue into the callbacks it
    returns, which are all those due at [T], and the callbacks it leaves,
    which are all due after [T] and are a heap again: a callback of the
    queue is returned exactly if it is due at [T], and left exactly if it is
    due after [T]. *)
Theorem take_all_due (T : Timestamp) (q : list Callback) :
  is_heap q →
  ∃ results q',
    CallbackRegistry.take 0 T q = Ok (results, q')
    ∧ results ++ q' ≡ₚ q
    ∧ Forall (λ cb, (when cb <= T)%Q) results
    ∧ Forall (λ cb, (T < when cb)%Q) q'
    ∧ is_heap q'
    ∧ ∀ cb, cb ∈ q →
        ((when cb <= T)%Q ↔ cb ∈ results) ∧ ((T < when cb)%Q ↔ cb ∈ q').
Proof.
  intros Hheap.
  destruct (take_spec 0 T q) as (r & q' & Hr & Hsplit & Hdue & _ & Hstop & Hsorted).
  destruct (Hsorted Hheap) as (Hq' & _ & _).
  assert (Hlate : Forall (λ cb, (T < when cb)%Q) q').
  { destruct Hstop as [Hstop|[Hpos _]]; [|lia]. by apply due_false_all. }
  exists r, q'. do 5 (split; trivial).
  intros cb Hcb. rewrite <- Hsplit in Hcb. apply elem_of_app in Hcb.
  rewrite Forall_forall in Hdue, Hlate.
  split; split; intros H.
  - destruct Hcb as [?|Hleft%Hlate]; [done|lra].
  - by apply Hdue.
  - destruct Hcb as [Htaken%Hdue|?]; [lra|done].
  - by apply Hlate.
Qed.

(** C3: with a positive [max], [take] returns at most [max] callbacks,
    however many are due. *)
Theorem take_at_most (k : N) (T : Timestamp) (q : list Callback) :
  (0 < k)%N →
  ∃ results q',
    CallbackRegistry.take k T q = Ok (results, q')
    ∧ (N.of_nat (length results) <= k)%N.
Proof.
  intros Hk.
  destruct (take_spec k T q) as (r & q' & Hr & _ & _ & Hcount & _).
  exists r, q'. auto.
Qed.

(** C4: [due(T)] holds exactly when [nextTimestamp()] has a value that is
    at most [T], and [empty()] holds exactly when it has none; [due] always
    has an answer. *)
Theorem queries_consistent (q : list Callback) (T : Timestamp) :
  (CallbackRegistry.due q T = Ok true ↔
   ∃ t, CallbackRegistry.nextTimestamp q = Ok (Some t) ∧ (t <= T)%Q)
  ∧ (CallbackRegistry.empty q = true ↔ CallbackRegistry.nextTimestamp q = Ok None)
  ∧ (∃ b, CallbackRegistry.due q T = Ok b).
Proof.
  split; [|split; [|apply due_total]].
  - destruct q as [|x c].
    + rewrite due_nil. split; [discriminate|]. by intros (t & [=] & _).
    + rewrite due_cons. unfold CallbackRegistry.nextTimestamp. simpl. split.
      * intros [= H%Qle_bool_iff]. eauto.
      * intros (t & [= <-] & H%Qle_bool_iff). by f_equal.
  - destruct q; simpl; split; trivial; discriminate.
Qed.

(** C10: [take] never reads the top of an empty queue nor pops one, and its
    loop ends: it returns, whatever the queue.  [due] is false on an empty
    queue, and [take] on an empty queue returns nothing and leaves the queue
    empty. *)
Theorem take_never_undefined (max : N) (T : Timestamp) (q : list Callback) :
  (∃ results q', CallbackRegistry.take max T q = Ok (results, q'))
  ∧ CallbackRegistry.due [] T = Ok false
  ∧ CallbackRegistry.take max T [] = Ok ([], []).
Proof.
  split; [|split; reflexivity].
  destruct (take_spec max T q) as (r & q' & Hr & _). eauto.
Qed.

(** ** [add] and the other threads *)

(** [add] puts one callback into the queue: it is due [secs] seconds after
    the clock's reading and bears the counter's value, and the counter moves
    on by one, around 2^64. *)
Lemma add_spec func data secs now (s : State) :
  queue (CallbackRegistry.add func data secs now s)
    ≡ₚ mkCallback (now + secs)%Q (nextCallbackNum s) (BoostFunction func data)
       :: queue s
  ∧ nextCallbackNum (CallbackRegistry.add func data secs now s)
    = ((nextCallbackNum s + 1) mod 2 ^ 64)%Z.
Proof. split; [apply push_perm|reflexivity]. Qed.

Lemma add_Rcpp_spec func secs now (s : State) :
  queue (CallbackRegistry.add_Rcpp func secs now s)
    ≡ₚ mkCallback (now + secs)%Q (nextCallbackNum s) (RcppFunction func)
       :: queue s
  ∧ nextCallbackNum (CallbackRegistry.add_Rcpp func secs now s)
    = ((nextCallbackNum s + 1) mod 2 ^ 64)%Z.
Proof. split; [apply push_perm|reflexivity]. Qed.

Lemma add_is_heap func data secs now (s : State) :
  is_heap (queue s) → is_heap (queue (CallbackRegistry.add func data secs now s)).
Proof. intros H. unfold CallbackRegistry.add. simpl. by apply push_is_heap. Qed.

Lemma add_Rcpp_is_heap func secs now (s : State) :
  is_heap (queue s) → is_heap (queue (CallbackRegistry.add_Rcpp func secs now s)).
Proof. intros H. unfold CallbackRegistry.add_Rcpp. simpl. by apply push_is_heap. Qed.

Lemma produce_is_heap (calls : list AddCall) : ∀ s,
  is_heap (queue s) → is_heap (queue (CallbackRegistry.produce calls s)).
Proof.
  unfold CallbackRegistry.produce.
  induction calls as [|c calls IH]; intros s H; simpl; trivial.
  by apply IH, add_is_heap.
Qed.

Lemma produced_is_heap env n : ∀ from s,
  is_heap (queue s) → is_heap (queue (produced env from n s)).
Proof.
  induction n as [|n IH]; intros from s H; simpl; trivial.
  by apply IH, produce_is_heap.
Qed.

Lemma produced_snoc env n : ∀ from s,
  produced env from (S n) s =
  CallbackRegistry.produce (producers env (from + n)) (produced env from n s).
Proof.
  induction n as [|n IH]; intros from s.
  - simpl. by rewrite Nat.add_0_r.
  - change (produced env from (S (S n)) s)
      with (produced env (S from) (S n)
              (CallbackRegistry.produce (producers env from) s)).
    rewrite IH. simpl. do 3 f_equal. lia.
Qed.

(** While no other thread adds, the program stays as it is. *)
Lemma produced_idle env n : ∀ from s,
  (∀ k, from ≤ k < from + n → producers env k = []) →
  produced env from n s = s.
Proof.
  induction n as [|n IH]; intros from s Hidle; simpl; trivial.
  rewrite (Hidle from) by lia. simpl. apply IH. intros k Hk. apply Hidle. lia.
Qed.

(** ** [wait] *)

Lemma nextTimestamp_total (q : list Callback) :
  CallbackRegistry.nextTimestamp q =
  Ok match q with [] => None | x :: _ => Some (when x) end.
Proof. by destruct q. Qed.

(** What the loop of [wait] does, from any state of the loop.  It sleeps
    [n] times, each time for a positive duration of at most two seconds, and
    checks for an interrupt after each sleep; the program changes by what
    the other threads add during these sleeps, and by nothing else; no check
    but the last one finds an interrupt; and the loop is left by [break]
    only if no check did, by [UserInterrupt] exactly when the last check
    did, and never by an undefined [top] or [pop]. *)
Lemma wait_loop_spec fuel : ∀ env expireTime w r w',
  CallbackRegistry.wait_loop fuel env expireTime w = (r, w') →
  ∃ waits,
    sleeps w' = sleeps w + length waits
    ∧ program w' = produced env (sleeps w) (length waits) (program w)
    ∧ trace w' = trace w ++ turns waits
    ∧ Forall (λ d, (0 < d <= 2)%Q) waits
    ∧ (∀ k, k < length waits - 1 → interrupt env (sleeps w + k) = false)
    ∧ match r with
      | Ok _ =>
          reads w' = S (reads w + length waits)
          ∧ ∀ k, k < length waits → interrupt env (sleeps w + k) = false
      | Err UserInterrupt =>
          0 < length waits
          ∧ interrupt env (sleeps w + length waits - 1) = true
      | Err OutOfFuel =>
          length waits = fuel
          ∧ ∀ k, k < length waits → interrupt env (sleeps w + k) = false
      | Err _ => False
      end.
Proof.
  induction fuel as [|fuel IH]; intros env expireTime w r w' Hrun.
  { simpl in Hrun. injection Hrun as <- <-. exists [].
    simpl. rewrite Nat.add_0_r, app_nil_r.
    repeat split; trivial; try constructor; intros; lia. }
  simpl in Hrun. rewrite nextTimestamp_total in Hrun.
  set (end_ := match _ with Some t => _ | None => _ end) in Hrun.
  destruct (Qle_bool (diff_secs end_ (clock env (reads w))) 0) eqn:Hbreak.
  { injection Hrun as <- <-. exists [].
    simpl. rewrite !Nat.add_0_r, app_nil_r.
    repeat split; trivial; try constructor; intros; lia. }
  set (waitFor := if Qgtb _ 2 then _ else _) in Hrun.
  assert (Hbound : (0 < waitFor <= 2)%Q).
  { assert (Hpos : (0 < diff_secs end_ (clock env (reads w)))%Q).
    { apply Qnot_le_lt. intros Hle%Qle_bool_iff. congruence. }
    unfold waitFor, Qgtb.
    destruct (Qltb 2 _) eqn:Hclamp;
      [|apply Qltb_ge in Hclamp]; split; trivial; lra. }
  clearbody waitFor.
  unfold CallbackRegistry.checkUserInterrupt in Hrun. simpl in Hrun.
  rewrite Nat.sub_0_r in Hrun.
  destruct (interrupt env (sleeps w)) eqn:Hint.
  { injection Hrun as <- <-. exists [waitFor]. simpl.
    rewrite <- app_assoc. simpl.
    repeat split; trivial; try (constructor; [trivial|constructor]); try lia.
    by replace (sleeps w + 1 - 1) with (sleeps w) by lia. }
  apply IH in Hrun as (waits & Hsleeps & Hprog & Htrace & Hwaits & Hquiet & Hend).
  simpl in Hsleeps, Hprog, Htrace, Hquiet, Hend.
  assert (Hshift : ∀ k, k < S (length waits) →
            (∀ k, k < length waits → interrupt env (S (sleeps w) + k) = false) →
            interrupt env (sleeps w + k) = false).
  { intros [|k] Hk H; [by rewrite Nat.add_0_r|].
    replace (sleeps w + S k) with (S (sleeps w) + k) by lia. apply H. lia. }
  exists (waitFor :: waits). simpl.
  split; [lia|]. split; [exact Hprog|].
  split; [by rewrite Htrace, <- !app_assoc|].
  split; [by constructor|].
  split.
  - intros [|k] Hk; [by rewrite Nat.add_0_r|].
    replace (sleeps w + S k) with (S (sleeps w) + k) by lia. apply Hquiet. lia.
  - destruct r as [[]|[]]; trivial.
    + destruct Hend as [Hreads Hnone]. split; [simpl in Hreads; lia|].
      intros k Hk. by apply Hshift.
    + destruct Hend as [Hpos Hlast]. split; [lia|].
      by replace (sleeps w + S (length waits) - 1)
        with (S (sleeps w) + length waits - 1) by lia.
    + destruct Hend as [Hlen Hnone]. split; [lia|].
      intros k Hk. by apply Hshift.
Qed.

(** [wait] as a whole: the loop, and [due()] at the time of the return *)
Lemma wait_spec fuel env timeoutSecs w r w' :
  CallbackRegistry.wait fuel env timeoutSecs w = (r, w') →
  ∃ waits,
    sleeps w' = sleeps w + length waits
    ∧ program w' = produced env (sleeps w) (length waits) (program w)
    ∧ trace w' = trace w ++ turns waits
    ∧ Forall (λ d, (0 < d <= 2)%Q) waits
    ∧ (∀ k, k < length waits - 1 → interrupt env (sleeps w + k) = false)
    ∧ match r with
      | Ok b =>
          CallbackRegistry.due (queue (program w')) (clock env (reads w' - 1)) = Ok b
          ∧ ∀ k, k < length waits → interrupt env (sleeps w + k) = false
      | Err UserInterrupt =>
          0 < length waits
          ∧ interrupt env (sleeps w + length waits - 1) = true
      | Err OutOfFuel =>
          length waits = fuel
          ∧ ∀ k, k < length waits → interrupt env (sleeps w + k) = false
      | Err _ => False
      end.
Proof.
  unfold CallbackRegistry.wait. simpl.
  destruct (CallbackRegistry.wait_loop _ _ _ _) as [r0 w0] eqn:Hloop.
  apply wait_loop_spec in Hloop
    as (waits & Hsleeps & Hprog & Htrace & Hwaits & Hquiet & Hend).
  simpl in Hsleeps, Hprog, Htrace, Hquiet, Hend.
  intros Hrun. exists waits.
  destruct r0 as [[]|e].
  - simpl in Hrun. injection Hrun as <- <-. simpl.
    rewrite Nat.sub_0_r.
    destruct (due_total (queue (program w0)) (clock env (reads w0))) as [b Hb].
    rewrite Hb. intuition.
  - injection Hrun as <- <-. intuition.
Qed.

(** C5: when [wait] returns, what it returns is [due()] at the time of the
    return, which on a heap tells whether some callback in the registry is
    due at that time. *)
Theorem wait_returns_due fuel env timeoutSecs w b w' :
  is_heap (queue (program w)) →
  CallbackRegistry.wait fuel env timeoutSecs w = (Ok b, w') →
  CallbackRegistry.due (queue (program w')) (clock env (reads w' - 1)) = Ok b
  ∧ (b = true ↔
     ∃ cb, cb ∈ queue (program w') ∧ (when cb <= clock env (reads w' - 1))%Q).
Proof.
  intros Hheap Hrun.
  apply wait_spec in Hrun as (waits & _ & Hprog & _ & _ & _ & Hdue & _).
  split; trivial.
  rewrite <- due_true_iff by (rewrite Hprog; by apply produced_is_heap).
  rewrite Hdue. split; congruence.
Qed.

(** C6: whatever [wait] meets and however it ends, all it does is a
    series of sleeps, each followed by a check for an interrupt, and no sleep
    is asked to last longer than two seconds. *)
Theorem wait_sleeps_at_most_2 fuel env timeoutSecs w :
  ∃ waits,
    trace (CallbackRegistry.wait fuel env timeoutSecs w).2 = trace w ++ turns waits
    ∧ Forall (λ waitFor, (waitFor <= 2)%Q) waits.
Proof.
  destruct (CallbackRegistry.wait fuel env timeoutSecs w) as [r w'] eqn:Hrun.
  apply wait_spec in Hrun as (waits & _ & _ & Htrace & Hwaits & _).
  exists waits. split; trivial.
  eapply Forall_impl; [exact Hwaits|]. simpl. intros d [_ Hd]. exact Hd.
Qed.

(** C7: a negative timeout is replaced by 3e10 seconds before the deadline
    is computed: the deadline is that many seconds after the clock's reading,
    [wait] runs as it does for a timeout of 3e10 seconds, and so it still
    sleeps for at most two seconds at a time and checks for an interrupt
    after each sleep. *)
Theorem wait_negative_timeout fuel env timeoutSecs w :
  (timeoutSecs < 0)%Q →
  CallbackRegistry.timeout timeoutSecs = 3e10%Q
  ∧ (∀ t, CallbackRegistry.expireTime t timeoutSecs = (t + 3e10)%Q)
  ∧ CallbackRegistry.wait fuel env timeoutSecs w
    = CallbackRegistry.wait fuel env 3e10%Q w
  ∧ ∃ waits,
      trace (CallbackRegistry.wait fuel env timeoutSecs w).2 = trace w ++ turns waits
      ∧ Forall (λ waitFor, (0 < waitFor <= 2)%Q) waits.
Proof.
  intros Hneg.
  assert (Htimeout : CallbackRegistry.timeout timeoutSecs = 3e10%Q).
  { unfold CallbackRegistry.timeout. by apply Qltb_lt in Hneg as ->. }
  assert (Hexpire : ∀ t, CallbackRegistry.expireTime t timeoutSecs = (t + 3e10)%Q).
  { intros t. unfold CallbackRegistry.expireTime. by rewrite Htimeout. }
  split; [exact Htimeout|]. split; [exact Hexpire|]. split.
  - unfold CallbackRegistry.wait. simpl. by rewrite Hexpire.
  - destruct (CallbackRegistry.wait fuel env timeoutSecs w) as [r w'] eqn:Hrun.
    apply wait_spec in Hrun as (waits & _ & _ & Htrace & Hwaits & _).
    by exists waits.
Qed.

(** C8: [wait] changes nothing in the program, on any path: it ends with
    what the other threads added during its sleeps, and with the program it
    started from if they added nothing.  When a check for an interrupt finds
    one, [wait] leaves by [UserInterrupt] at that very check, which is its
    last. *)
Theorem wait_interrupted fuel env timeoutSecs w r w' :
  CallbackRegistry.wait fuel env timeoutSecs w = (r, w') →
  program w' = produced env (sleeps w) (sleeps w' - sleeps w) (program w)
  ∧ ((∀ k, sleeps w ≤ k < sleeps w' → producers env k = []) →
     program w' = program w)
  ∧ ((∃ k, sleeps w ≤ k < sleeps w' ∧ interrupt env k = true) →
     r = Err UserInterrupt
     ∧ interrupt env (sleeps w' - 1) = true
     ∧ ∀ k, sleeps w ≤ k < sleeps w' - 1 → interrupt env k = false).
Proof.
  intros Hrun.
  apply wait_spec in Hrun as (waits & Hsleeps & Hprog & _ & _ & Hquiet & Hend).
  replace (sleeps w' - sleeps w) with (length waits) by lia.
  split; [exact Hprog|]. split.
  { intros Hidle. rewrite Hprog. apply produced_idle.
    intros j Hj. apply Hidle. lia. }
  intros (k & Hk & Hint).
  assert (Hnone : (∀ k, k < length waits → interrupt env (sleeps w + k) = false) → False).
  { intros H. specialize (H (k - sleeps w) ltac:(lia)).
    replace (sleeps w + (k - sleeps w)) with k in H by lia. congruence. }
  assert (Hr : r = Err UserInterrupt).
  { destruct r as [b|[]]; trivial; exfalso; tauto. }
  subst r. destruct Hend as [Hpos Hlast].
  split; [reflexivity|]. split.
  - by replace (sleeps w' - 1) with (sleeps w + length waits - 1) by lia.
  - intros j Hj. specialize (Hquiet (j - sleeps w) ltac:(lia)).
    by replace (sleeps w + (j - sleeps w)) with j in Hquiet by lia.
Qed.

(** ** [list] *)

(** What the loop of [list] does, from any state of the loop: it never
    stops on an error, and it appends the representations of the callbacks
    of its queue, each with the clock's reading of its turn; on a heap, in
    the order of the callbacks. *)
Lemma list_loop_spec fuel : ∀ clock q results,
  length q ≤ fuel →
  ∃ items,
    CallbackRegistry.list_loop fuel clock q results =
      Ok (results ++ imap (λ k cb, rRepresentation cb (clock (length results + k))) items)
    ∧ items ≡ₚ q
    ∧ (is_heap q → StronglySorted cb_le items).
Proof.
  induction fuel as [|fuel IH]; intros clock q results Hfuel.
  { destruct q; [|simpl in Hfuel; lia]. exists []. simpl.
    rewrite app_nil_r. repeat split; trivial. constructor. }
  destruct q as [|x c].
  { exists []. simpl. rewrite app_nil_r. repeat split; trivial. constructor. }
  destruct (pop_cons x c) as (c' & Hpop & Hperm & Hheap).
  destruct (IH clock c' (results ++ [rRepresentation x (clock (length results))]))
    as (items & Hrun & Hitems & Hsorted).
  { rewrite Hperm. simpl in Hfuel. lia. }
  exists (x :: items). split; [|split].
  - change (CallbackRegistry.list_loop (S fuel) clock (x :: c) results)
      with (temp_queue ← priority_queue.pop (x :: c);
            CallbackRegistry.list_loop fuel clock temp_queue
              (results ++ [rRepresentation x (clock (length results))])).
    rewrite Hpop. simpl. rewrite Hrun, <- app_assoc. simpl.
    rewrite Nat.add_0_r. do 3 f_equal.
    apply imap_ext. intros k cb _. simpl.
    rewrite length_app. simpl. do 2 f_equal. lia.
  - by rewrite Hitems, Hperm.
  - intros Hq. constructor; [by apply Hsorted, Hheap|].
    rewrite Hitems, Hperm.
    pose proof (top_least x c Hq) as Hmin. by inversion Hmin.
Qed.

(** C9: on a heap, [list] returns the representations of all the callbacks
    of the queue in the order of (due time, sequence number), each with the
    clock's reading of its turn, and it leaves the program, the queue with
    it, exactly as it was. *)
Theorem list_snapshot (clock : nat → Timestamp) (s : State) :
  is_heap (queue s) →
  ∃ items,
    CallbackRegistry.list clock s =
      (Ok (imap (λ k cb, rRepresentation cb (clock k)) items), s)
    ∧ items ≡ₚ queue s
    ∧ StronglySorted in_order items.
Proof.
  intros Hheap. unfold CallbackRegistry.list.
  destruct (list_loop_spec (length (queue s)) clock (queue s) [] (Nat.le_refl _))
    as (items & Hrun & Hitems & Hsorted).
  exists items. rewrite Hrun. simpl. repeat split; trivial.
  apply (StronglySorted_weaken cb_le); [|by apply Hsorted].
  intros a b. apply cb_le_spec.
Qed.

(** ** The states of the registry *)

(** [take] leaves a heap a heap, whatever [max]. *)
Lemma take_is_heap (max : N) (T : Timestamp) (q results q' : list Callback) :
  is_heap q → CallbackRegistry.take max T q = Ok (results, q') → is_heap q'.
Proof.
  intros Hheap Htake.
  destruct (take_spec max T q) as (r & q0 & Hr & _ & _ & _ & _ & Hsorted).
  rewrite Htake in Hr. injection Hr as <- <-. by apply Hsorted.
Qed.

(** The queue of the registry is a heap in every state that the program
    reaches. *)
Lemma reachable_is_heap (s : State) : reachable s → is_heap (queue s).
Proof.
  induction 1 as [n|f secs now s _ IH|f d secs now s _ IH|max T s r q' _ IH Htake];
    simpl.
  - apply is_heap_nil.
  - by apply add_Rcpp_is_heap.
  - by apply add_is_heap.
  - by apply (take_is_heap max T (queue s) r q').
Qed.

(** ** The test of the order *)

(** While the counter does not wrap, the callbacks are numbered in the
    order in which they are made. *)
Lemma make_callbacks_lookup (n : nat) (ts : Timestamp) (func : Work) :
  ∀ (next : Z) (i : nat),
    (0 <= next)%Z → (next + Z.of_nat n <= uint64_modulus)%Z → i < n →
    (make_callbacks n ts func next).1 !! i
    = Some (mkCallback ts (next + Z.of_nat i) func).
Proof.
  induction n as [|n IH]; intros next i Hnext Hwrap Hi; [lia|].
  simpl. destruct (make_callbacks n ts func _) as [callbacks next'] eqn:Hrest.
  destruct i as [|i]; simpl.
  - by rewrite Z.add_0_r.
  - assert (Hmod : ((next + 1) mod uint64_modulus = next + 1)%Z)
      by (apply Z.mod_small; lia).
    rewrite Hmod in Hrest.
    specialize (IH (next + 1)%Z i ltac:(lia) ltac:(lia) ltac:(lia)).
    rewrite Hrest in IH. simpl in IH. rewrite IH. do 2 f_equal. lia.
Qed.

Lemma first_error_none (check : nat → option string) (indices : list nat) :
  Forall (λ i, check i = None) indices → first_error check indices = None.
Proof. induction 1 as [|i rest Hi _ IH]; simpl; [done|by rewrite Hi]. Qed.

(** Of two callbacks for the same time, the one with the lower number is
    the lesser. *)
Lemma cb_lt_same_time (ts : Timestamp) (m n : Z) (f g : Work) :
  cb_lt (mkCallback ts m f) (mkCallback ts n g) = (m <? n)%Z.
Proof.
  unfold cb_lt, Qltb. simpl.
  assert (Hle : Qle_bool ts ts = true) by (apply Qle_bool_iff; lra).
  by rewrite Hle, Qeq_bool_refl.
Qed.

(** The test passes from every value of the counter that leaves room for a
    hundred numbers. *)
Lemma testCallbackOrdering_passes (ts : Timestamp) (next : Z) :
  (0 <= next)%Z → (next + 100 <= uint64_modulus)%Z →
  (testCallbackOrdering ts next).1 = None.
Proof.
  intros Hnext Hwrap. unfold testCallbackOrdering.
  pose proof (make_callbacks_lookup 100 ts (BoostFunction 0 0) next) as Hnth.
  destruct (make_callbacks 100 ts _ next) as [callbacks next'].
  simpl in Hnth. rewrite !first_error_none; trivial.
  - apply Forall_forall. intros i Hi%list_elem_of_In%in_rev%in_seq.
    unfold check_backwards.
    rewrite (Hnth (i - 1)), (Hnth (i - 2)) by lia.
    rewrite cb_lt_same_time.
    by destruct (Z.ltb_spec (next + Z.of_nat (i - 1)) (next + Z.of_nat (i - 2))); [lia|].
  - apply Forall_forall. intros i Hi%list_elem_of_In%in_seq.
    unfold check_neighbours, cb_gt.
    rewrite (Hnth i), (Hnth (i - 1)) by lia.
    rewrite !cb_lt_same_time.
    destruct (Z.ltb_spec (next + Z.of_nat i) (next + Z.of_nat (i - 1))); [lia|].
    by destruct (Z.ltb_spec (next + Z.of_nat (i - 1)) (next + Z.of_nat i)); [|lia].
Qed.

(** It fails when the counter wraps between two of its callbacks. *)
Lemma testCallbackOrdering_wraps :
  (testCallbackOrdering 0%Q (uint64_modulus - 1)).1
  = Some "Callback ordering is broken [1]".
Proof. vm_compute. reflexivity. Qed.

(** ** The scenarios of the spec *)

(** Callbacks added at time 100 with delays of 0, 5, 5 and 1 seconds:
    [take(0, 100)] yields the first; then [take(0, 101)] yields the one with
    the delay of 1 second; then [take(0, 105)] yields the two with the delay
    of 5 seconds, in the order in which they were added. *)
Example scenario_takes :
  ∃ q1 q2,
    CallbackRegistry.take 0 100%Q (queue (scenario 100%Q))
    = Ok ([mkCallback 100%Q 0 (BoostFunction 10 0)], q1)
    ∧ CallbackRegistry.take 0 101%Q q1
      = Ok ([mkCallback 101%Q 3 (BoostFunction 13 0)], q2)
    ∧ CallbackRegistry.take 0 105%Q q2
      = Ok ([mkCallback 105%Q 1 (BoostFunction 11 0);
             mkCallback 105%Q 2 (BoostFunction 12 0)], []).
Proof.
  eexists _, _. split; [vm_compute; reflexivity|].
  split; vm_compute; reflexivity.
Qed.

(** An empty registry and a timeout of a tenth of a second: [wait] sleeps
    once, for that long, and returns false. *)
Example wait_empty_for_a_tenth :
  ∃ w' waitFor,
    CallbackRegistry.wait 10 (alone (stepping 100%Q 0.1%Q)) 0.1%Q (idle initial)
    = (Ok false, w')
    ∧ trace w' = [TimedWait waitFor; CheckUserInterrupt]
    ∧ (waitFor == 0.1)%Q.
Proof. eexists _, _. repeat split; vm_compute; reflexivity. Qed.

(** One callback due in ten seconds and no timeout: [wait] sleeps five
    times for two seconds and returns true. *)
Example wait_ten_seconds :
  ∃ w',
    CallbackRegistry.wait 10 (alone (stepping 100%Q 2%Q)) (-1)%Q
      (idle (CallbackRegistry.add 10 0 10%Q 100%Q initial))
    = (Ok true, w')
    ∧ trace w' = turns [2%Q; 2%Q; 2%Q; 2%Q; 2%Q].
Proof. eexists. split; vm_compute; reflexivity. Qed.

(** ** The theorems on the examples *)

(** In the scenario at time 101, two callbacks are due and two are not. *)
Lemma take_all_due_witness :
  is_heap (queue (scenario 100%Q))
  ∧ ∃ results q',
      CallbackRegistry.take 0 101%Q (queue (scenario 100%Q)) = Ok (results, q')
      ∧ results ++ q' ≡ₚ queue (scenario 100%Q)
      ∧ Forall (λ cb, (when cb <= 101)%Q) results
      ∧ Forall (λ cb, (101 < when cb)%Q) q'
      ∧ is_heap q'
      ∧ ∀ cb, cb ∈ queue (scenario 100%Q) →
          ((when cb <= 101)%Q ↔ cb ∈ results) ∧ ((101 < when cb)%Q ↔ cb ∈ q').
Proof.
  split; [vm_compute; reflexivity|].
  apply (take_all_due 101%Q (queue (scenario 100%Q))). vm_compute; reflexivity.
Defined.

(** In the scenario at time 105, four callbacks are due and two are asked for. *)
Lemma take_at_most_witness :
  (0 < 2)%N
  ∧ ∃ results q',
      CallbackRegistry.take 2 105%Q (queue (scenario 100%Q)) = Ok (results, q')
      ∧ (N.of_nat (length results) <= 2)%N.
Proof.
  split; [reflexivity|].
  apply (take_at_most 2 105%Q (queue (scenario 100%Q))). reflexivity.
Defined.

(** A wait without a timeout on an empty registry: the callback that
    another thread adds during the second sleep becomes due, and [wait]
    returns true. *)
Lemma wait_returns_due_witness :
  is_heap (queue (program (idle initial)))
  ∧ ∃ w',
      CallbackRegistry.wait 10 (busy None) (-1)%Q (idle initial) = (Ok true, w')
      ∧ CallbackRegistry.due (queue (program w')) (clock (busy None) (reads w' - 1))
        = Ok true
      ∧ (true = true ↔
         ∃ cb, cb ∈ queue (program w')
               ∧ (when cb <= clock (busy None) (reads w' - 1))%Q).
Proof.
  split; [reflexivity|].
  eexists. split; [vm_compute; reflexivity|].
  apply (wait_returns_due 10 (busy None) (-1)%Q (idle initial) true);
    [reflexivity|vm_compute; reflexivity].
Defined.

(** A wait with the timeout -1: it sleeps four times, for two seconds at
    most, until the callback that another thread has added is due. *)
Lemma wait_negative_timeout_witness :
  (-1 < 0)%Q
  ∧ trace (CallbackRegistry.wait 10 (busy None) (-1)%Q (idle initial)).2
    = [TimedWait 2; CheckUserInterrupt; TimedWait 2; CheckUserInterrupt;
       TimedWait (3 # 2); CheckUserInterrupt; TimedWait (1 # 2);
       CheckUserInterrupt]
  ∧ CallbackRegistry.timeout (-1)%Q = 3e10%Q
  ∧ (∀ t, CallbackRegistry.expireTime t (-1)%Q = (t + 3e10)%Q)
  ∧ CallbackRegistry.wait 10 (busy None) (-1)%Q (idle initial)
    = CallbackRegistry.wait 10 (busy None) 3e10%Q (idle initial)
  ∧ ∃ waits,
      trace (CallbackRegistry.wait 10 (busy None) (-1)%Q (idle initial)).2
      = trace (idle initial) ++ turns waits
      ∧ Forall (λ waitFor, (0 < waitFor <= 2)%Q) waits.
Proof.
  split; [reflexivity|]. split; [vm_compute; reflexivity|].
  apply (wait_negative_timeout 10 (busy None) (-1)%Q (idle initial)).
  reflexivity.
Defined.

(** A wait that is interrupted at the check after its third sleep: it
    leaves by the interrupt, the registry holds the callback that the other
    thread added during the second sleep, and nothing else has changed. *)
Lemma wait_interrupted_witness :
  ∃ w',
    CallbackRegistry.wait 10 (busy (Some 2)) (-1)%Q (idle initial)
    = (Err UserInterrupt, w')
    ∧ sleeps w' = 3
    ∧ program w' = mkState 1 [mkCallback (209 # 2)%Q 0 (BoostFunction 20 0)]
    ∧ program w' =
      produced (busy (Some 2)) (sleeps (idle initial))
        (sleeps w' - sleeps (idle initial)) (program (idle initial))
    ∧ (∃ k, sleeps (idle initial) ≤ k < sleeps w'
            ∧ interrupt (busy (Some 2)) k = true)
    ∧ interrupt (busy (Some 2)) (sleeps w' - 1) = true
    ∧ ∀ k, sleeps (idle initial) ≤ k < sleeps w' - 1 →
           interrupt (busy (Some 2)) k = false.
Proof.
  eexists. split; [vm_compute; reflexivity|].
  split; [reflexivity|]. split; [reflexivity|].
  destruct (wait_interrupted 10 (busy (Some 2)) (-1)%Q (idle initial)
              (Err UserInterrupt) _ ltac:(vm_compute; reflexivity))
    as (Hprogram & _ & Hfired).
  split; [exact Hprogram|].
  assert (Hk : ∃ k, sleeps (idle initial) ≤ k < 3
                    ∧ interrupt (busy (Some 2)) k = true).
  { exists 2. split; [simpl; lia|reflexivity]. }
  split; [exact Hk|].
  destruct (Hfired Hk) as (_ & Hlast & Hquiet). by split.
Defined.

(** The list of the scenario, a second after the callbacks were added *)
Lemma list_snapshot_witness :
  is_heap (queue (scenario 100%Q))
  ∧ ∃ items,
      CallbackRegistry.list (ticking 101%Q) (scenario 100%Q) =
        (Ok (imap (λ k cb, rRepresentation cb (ticking 101%Q k)) items),
         scenario 100%Q)
      ∧ items ≡ₚ queue (scenario 100%Q)
      ∧ StronglySorted in_order items.
Proof.
  split; [vm_compute; reflexivity|].
  apply (list_snapshot (ticking 101%Q) (scenario 100%Q)). vm_compute; reflexivity.
Defined.

(** * More about the registry *)

(** ** [add] *)

(** Both overloads of [add] put exactly one callback into the queue: it is
    due [secs] seconds after the clock's reading, bears the counter's value
    and holds the function; the counter moves on by one, around 2^64; the
    registry is not empty afterwards; and a heap stays a heap. *)
Theorem add_inserts_one (func data : Z) (secs : Q) (now : Timestamp) (s : State) :
  (queue (CallbackRegistry.add func data secs now s)
     ≡ₚ mkCallback (now + secs)%Q (nextCallbackNum s) (BoostFunction func data)
        :: queue s
   ∧ nextCallbackNum (CallbackRegistry.add func data secs now s)
     = ((nextCallbackNum s + 1) mod 2 ^ 64)%Z
   ∧ CallbackRegistry.empty (queue (CallbackRegistry.add func data secs now s))
     = false
   ∧ (is_heap (queue s) →
      is_heap (queue (CallbackRegistry.add func data secs now s))))
  ∧ (queue (CallbackRegistry.add_Rcpp func secs now s)
       ≡ₚ mkCallback (now + secs)%Q (nextCallbackNum s) (RcppFunction func)
          :: queue s
     ∧ nextCallbackNum (CallbackRegistry.add_Rcpp func secs now s)
       = ((nextCallbackNum s + 1) mod 2 ^ 64)%Z
     ∧ CallbackRegistry.empty (queue (CallbackRegistry.add_Rcpp func secs now s))
       = false
     ∧ (is_heap (queue s) →
        is_heap (queue (CallbackRegistry.add_Rcpp func secs now s)))).
Proof.
  assert (Hfull : ∀ (x : Callback) (c c' : list Callback),
            c' ≡ₚ x :: c → CallbackRegistry.empty c' = false).
  { intros x c [|y c'] Hperm; [|reflexivity].
    by apply Permutation_nil_cons in Hperm. }
  split.
  - destruct (add_spec func data secs now s) as [Hperm Hnext].
    repeat split; trivial; [by eapply Hfull|apply add_is_heap].
  - destruct (add_Rcpp_spec func secs now s) as [Hperm Hnext].
    repeat split; trivial; [by eapply Hfull|apply add_Rcpp_is_heap].
Qed.

(** ** More about [take] *)

(** The loop of [take] does the same with any fuel that is enough. *)
Lemma take_loop_fuel f1 : ∀ f2 max T q results,
  length q ≤ f1 → length q ≤ f2 →
  CallbackRegistry.take_loop f1 max T q results
  = CallbackRegistry.take_loop f2 max T q results.
Proof.
  induction f1 as [|f1 IH]; intros f2 max T q results H1 H2;
    rewrite (take_loop_unfold _ max T q results);
    rewrite (take_loop_unfold f2 max T q results);
    destruct q as [|x c]; trivial; [simpl in H1; lia|].
  destruct (_ && _); trivial.
  destruct f2 as [|f2]; [simpl in H2; lia|].
  destruct (pop_cons x c) as (c' & -> & Hperm & _).
  apply IH; rewrite Hperm; simpl in *; lia.
Qed.

(** Without a bound, what the loop of [take] takes does not depend on what
    was taken before. *)
Lemma take_loop_acc fuel : ∀ T q acc,
  CallbackRegistry.take_loop fuel 0 T q acc
  = match CallbackRegistry.take_loop fuel 0 T q [] with
    | Ok (results, q') => Ok (acc ++ results, q')
    | Err e => Err e
    end.
Proof.
  induction fuel as [|fuel IH]; intros T q acc;
    rewrite (take_loop_unfold _ 0 T q acc);
    rewrite (take_loop_unfold _ 0 T q []);
    destruct q as [|x c]; rewrite ?app_nil_r; trivial.
  - destruct (Qle_bool (when x) T); cbn [andb orb N.leb N.compare];
      by rewrite ?app_nil_r.
  - destruct (Qle_bool (when x) T); cbn [andb orb N.leb N.compare app];
      [|by rewrite app_nil_r].
    destruct (priority_queue.pop (x :: c)) as [c'|e]; trivial.
    rewrite (IH T c' (acc ++ [x])), (IH T c' [x]).
    destruct (CallbackRegistry.take_loop fuel 0 T c' []) as [[r q']|e]; trivial.
    by rewrite <- app_assoc.
Qed.

(** An unbounded loop at a later time goes on where any loop has stopped. *)
Lemma take_loop_resume f1 : ∀ max T1 T2 q results r1 q1 f2 f3,
  (T1 <= T2)%Q →
  length q ≤ f1 → length q1 ≤ f2 → length q ≤ f3 →
  CallbackRegistry.take_loop f1 max T1 q results = Ok (r1, q1) →
  CallbackRegistry.take_loop f2 0 T2 q1 r1
  = CallbackRegistry.take_loop f3 0 T2 q results.
Proof.
  induction f1 as [|f1 IH]; intros max T1 T2 q results r1 q1 f2 f3 HT H1 H2 H3;
    rewrite (take_loop_unfold _ max T1 q results);
    destruct q as [|x c]; try (simpl in H1; lia).
  - intros [= <- <-]. by apply take_loop_fuel.
  - intros [= <- <-]. by apply take_loop_fuel.
  - destruct (Qle_bool (when x) T1 && _) eqn:Hcond.
    2: { intros [= <- <-]. by apply take_loop_fuel. }
    apply andb_true_iff in Hcond as [Hdue%Qle_bool_iff _].
    destruct (pop_cons x c) as (c' & Hpop & Hperm & _). rewrite Hpop.
    intros Hrun.
    rewrite (take_loop_unfold f3 0 T2 (x :: c) results).
    assert (Hdue2 : Qle_bool (when x) T2 = true) by (apply Qle_bool_iff; lra).
    rewrite Hdue2. simpl andb.
    destruct f3 as [|f3]; [simpl in H3; lia|]. rewrite Hpop.
    apply (IH max T1 T2 c' (results ++ [x])); trivial;
      rewrite Hperm; simpl in *; lia.
Qed.

(** The callbacks that [take] hands out and leaves, by their positions: a
    sorted list before a heap of later callbacks *)
Lemma take_sorted (max : N) (T : Timestamp) (q results q' : list Callback) :
  is_heap q →
  CallbackRegistry.take max T q = Ok (results, q') →
  StronglySorted cb_le results
  ∧ Forall (λ a, Forall (cb_le a) q') results
  ∧ results ++ q' ≡ₚ q
  ∧ Forall (λ cb, (when cb <= T)%Q) results
  ∧ is_heap q'
  ∧ (CallbackRegistry.due q' T = Ok false
     ∨ ((0 < max)%N ∧ (max <= N.of_nat (length results))%N)).
Proof.
  intros Hheap Htake.
  destruct (take_spec max T q) as (r & q0 & Hr & Hsplit & Hdue & _ & Hstop & Hsorted).
  rewrite Htake in Hr. injection Hr as <- <-.
  destruct (Hsorted Hheap) as (Hq' & Hsort & Hleft). auto 10.
Qed.

(** After [take(0, T)], a second [take(0, T)] finds nothing to take and
    leaves the queue as it is. *)
Theorem take_again_takes_nothing (T : Timestamp) (q : list Callback) :
  ∃ results q',
    CallbackRegistry.take 0 T q = Ok (results, q')
    ∧ CallbackRegistry.due q' T = Ok false
    ∧ CallbackRegistry.take 0 T q' = Ok ([], q').
Proof.
  destruct (take_spec 0 T q) as (r & q' & Hr & _ & _ & _ & Hstop & _).
  exists r, q'. split; [exact Hr|].
  destruct Hstop as [Hstop|[Hpos _]]; [|lia].
  split; [exact Hstop|].
  unfold CallbackRegistry.take. rewrite take_loop_unfold.
  destruct q' as [|x c]; trivial.
  rewrite due_cons in Hstop. injection Hstop as ->. reflexivity.
Qed.

(** Taking in steps is taking at once: after any [take] at the time [T1],
    [take(0, T2)] at a later time [T2] returns what [take(0, T2)] would have
    returned in the first place, less what the first [take] has returned
    already, in the same order, and leaves the same queue. *)
Theorem take_in_steps (max : N) (T1 T2 : Timestamp) (q r1 q1 r2 q2 : list Callback) :
  (T1 <= T2)%Q →
  CallbackRegistry.take max T1 q = Ok (r1, q1) →
  CallbackRegistry.take 0 T2 q1 = Ok (r2, q2) →
  CallbackRegistry.take 0 T2 q = Ok (r1 ++ r2, q2).
Proof.
  unfold CallbackRegistry.take. intros HT H1 H2.
  rewrite <- (take_loop_resume (length q) max T1 T2 q [] r1 q1 (length q1) (length q));
    trivial.
  by rewrite take_loop_acc, H2.
Qed.

(** With a positive [max] and a heap, [take] returns [max] callbacks or
    leaves none that is due: it returns all that is due as far as [max]
    allows, and what it returns and what it leaves is what was there. *)
Theorem take_as_many_as_due (k : N) (T : Timestamp) (q : list Callback) :
  (0 < k)%N → is_heap q →
  ∃ results q',
    CallbackRegistry.take k T q = Ok (results, q')
    ∧ results ++ q' ≡ₚ q
    ∧ Forall (λ cb, (when cb <= T)%Q) results
    ∧ is_heap q'
    ∧ (N.of_nat (length results) = k ∨ Forall (λ cb, (T < when cb)%Q) q').
Proof.
  intros Hk Hheap.
  destruct (take_spec k T q) as (r & q' & Hr & Hsplit & Hdue & Hcount & Hstop & Hsorted).
  destruct (Hsorted Hheap) as (Hq' & _ & _).
  exists r, q'. do 4 (split; trivial).
  destruct Hstop as [Hstop|[_ Hfull]].
  - right. by apply due_false_all.
  - left. specialize (Hcount Hk). lia.
Qed.

(** ** The earliest callback *)

(** In every state that the program reaches through [add] and [take], the
    queue is a heap, and the callback at its front is the earliest by (due
    time, sequence number). *)
Theorem registry_stays_heap (s : State) :
  reachable s →
  is_heap (queue s)
  ∧ ∀ x c, queue s = x :: c → Forall (in_order x) (x :: c).
Proof.
  intros Hheap%reachable_is_heap. split; trivial.
  intros x c Hq. rewrite Hq in Hheap.
  eapply Forall_impl; [by apply top_least|]. intros cb. apply cb_le_spec.
Qed.

(** While the counter has not gone around 2^64, the callbacks in the
    registry bear numbers below the counter, no two of them the same, so
    that of two callbacks in the queue one is less than the other. *)
Theorem callback_numbers_unique (s : State) :
  numbered s →
  (0 <= nextCallbackNum s)%Z
  ∧ Forall (λ cb, (0 <= callbackNum cb < nextCallbackNum s)%Z) (queue s)
  ∧ NoDup (callbackNum <$> queue s)
  ∧ ∀ i j a b,
      queue s !! i = Some a → queue s !! j = Some b → i ≠ j →
      cb_lt a b ≠ cb_lt b a.
Proof.
  intros Hs.
  assert (Hinv : (0 <= nextCallbackNum s)%Z
                 ∧ Forall (λ cb, (0 <= callbackNum cb < nextCallbackNum s)%Z) (queue s)
                 ∧ NoDup (callbackNum <$> queue s)).
  { assert (Hadd : ∀ (s s' : State) (cb : Callback),
              (0 <= nextCallbackNum s)%Z
              ∧ Forall (λ cb, (0 <= callbackNum cb < nextCallbackNum s)%Z) (queue s)
              ∧ NoDup (callbackNum <$> queue s) →
              (nextCallbackNum s + 1 < uint64_modulus)%Z →
              callbackNum cb = nextCallbackNum s →
              queue s' ≡ₚ cb :: queue s →
              nextCallbackNum s' = ((nextCallbackNum s + 1) mod 2 ^ 64)%Z →
              (0 <= nextCallbackNum s')%Z
              ∧ Forall (λ cb, (0 <= callbackNum cb < nextCallbackNum s')%Z) (queue s')
              ∧ NoDup (callbackNum <$> queue s')).
    { intros s0 s' cb (Hpos & Hbelow & Hdup) Hwrap Hnum Hperm Hnext.
      unfold uint64_modulus in Hwrap.
      rewrite Z.mod_small in Hnext by lia.
      rewrite Hperm, Hnext. split; [lia|]. split.
      - constructor; [lia|]. eapply Forall_impl; [exact Hbelow|].
        simpl. intros; lia.
      - rewrite fmap_cons. constructor; trivial.
        intros (cb' & Heq & Hin)%list_elem_of_fmap.
        rewrite Forall_forall in Hbelow. apply Hbelow in Hin. lia. }
    induction Hs as [|f secs now s Hs IH Hwrap|f d secs now s Hs IH Hwrap
                     |max T s r q' Hs IH Htake].
    - repeat split; simpl; try lia; constructor.
    - destruct (add_Rcpp_spec f secs now s) as [Hperm Hnext].
      refine (Hadd s _ _ IH Hwrap _ Hperm Hnext). reflexivity.
    - destruct (add_spec f d secs now s) as [Hperm Hnext].
      refine (Hadd s _ _ IH Hwrap _ Hperm Hnext). reflexivity.
    - destruct IH as (Hpos & Hbelow & Hdup).
      destruct (take_spec max T (queue s)) as (r0 & q0 & Hr & Hsplit & _).
      rewrite Htake in Hr. injection Hr as <- <-. simpl.
      rewrite <- Hsplit in Hbelow, Hdup.
      apply Forall_app in Hbelow as [_ Hbelow].
      rewrite fmap_app in Hdup. apply NoDup_app in Hdup as (_ & _ & Hdup).
      auto. }
  destruct Hinv as (Hpos & Hbelow & Hdup). repeat split; trivial.
  intros i j a b Ha Hb Hij Heq.
  assert (Hnum : callbackNum a ≠ callbackNum b).
  { intros Hnum. apply Hij.
    apply (NoDup_lookup _ i j (callbackNum a) Hdup);
      rewrite list_lookup_fmap; [by rewrite Ha|by rewrite Hb, Hnum]. }
  destruct (cb_lt a b) eqn:Hab.
  - symmetry in Heq. apply cb_lt_spec in Hab, Heq.
    destruct Hab as [?|[? ?]], Heq as [?|[? ?]]; try lra. lia.
  - symmetry in Heq.
    assert (Hle1 : cb_le b a) by exact Hab.
    assert (Hle2 : cb_le a b) by exact Heq.
    apply cb_le_spec in Hle1, Hle2.
    destruct Hle1 as [?|[? ?]], Hle2 as [?|[? ?]]; try lra. lia.
Qed.

(** On a heap, [nextTimestamp] is the smallest due time in the registry: it
    has no value exactly when the registry is empty, and otherwise its value
    is the due time of some callback and no callback is due before it. *)
Theorem nextTimestamp_is_smallest (q : list Callback) :
  is_heap q →
  match CallbackRegistry.nextTimestamp q with
  | Ok (Some t) =>
      (∃ cb, cb ∈ q ∧ when cb = t) ∧ ∀ cb, cb ∈ q → (t <= when cb)%Q
  | Ok None => q = []
  | Err _ => False
  end.
Proof.
  intros Hheap. rewrite nextTimestamp_total. destruct q as [|x c]; trivial.
  split.
  - exists x. split; [apply list_elem_of_here|reflexivity].
  - intros cb Hcb. pose proof (top_least x c Hheap) as Hmin.
    rewrite Forall_forall in Hmin. by apply cb_le_when, Hmin.
Qed.

(** On a heap, [due(T)] tells whether the registry holds a callback that is
    due at [T]: it is true exactly when there is one, and false exactly when
    every callback is due after [T]. *)
Theorem due_iff_some_callback_due (q : list Callback) (T : Timestamp) :
  is_heap q →
  (CallbackRegistry.due q T = Ok true ↔ ∃ cb, cb ∈ q ∧ (when cb <= T)%Q)
  ∧ (CallbackRegistry.due q T = Ok false ↔ ∀ cb, cb ∈ q → (T < when cb)%Q).
Proof.
  intros Hheap. split; [by apply due_true_iff|]. split.
  - intros Hdue%due_false_all; trivial. by apply Forall_forall.
  - intros Hlate. destruct (due_total q T) as [[|] Hb]; trivial.
    apply due_true_iff in Hb as (cb & Hcb & Hle); trivial.
    specialize (Hlate cb Hcb). lra.
Qed.

(** ** [add] and then [take] *)

(** [take(0, T)] on a heap: what is due is returned, what is not is left. *)
Lemma take_0_split (T : Timestamp) (q : list Callback) :
  is_heap q →
  ∃ results q',
    CallbackRegistry.take 0 T q = Ok (results, q')
    ∧ results ++ q' ≡ₚ q
    ∧ Forall (λ cb, (when cb <= T)%Q) results
    ∧ Forall (λ cb, (T < when cb)%Q) q'.
Proof.
  intros Hheap.
  destruct (take_spec 0 T q) as (r & q' & Hr & Hsplit & Hdue & _ & Hstop & Hsorted).
  destruct (Hsorted Hheap) as (Hq' & _ & _).
  exists r, q'. repeat split; trivial.
  destruct Hstop as [Hstop|[Hpos _]]; [|lia]. by apply due_false_all.
Qed.

(** A callback that was added comes out of [take(0, T)] exactly if it is
    due at [T], that is if [T] is at least [secs] seconds after the clock's
    reading at the call of [add]; otherwise it stays in the queue. *)
Theorem add_then_take (func data : Z) (secs : Q) (now T : Timestamp) (s : State) :
  is_heap (queue s) →
  ∃ results q',
    CallbackRegistry.take 0 T (queue (CallbackRegistry.add func data secs now s))
    = Ok (results, q')
    ∧ results ++ q'
      ≡ₚ mkCallback (now + secs)%Q (nextCallbackNum s) (BoostFunction func data)
         :: queue s
    ∧ ((now + secs <= T)%Q ↔
       mkCallback (now + secs)%Q (nextCallbackNum s) (BoostFunction func data)
       ∈ results)
    ∧ ((T < now + secs)%Q ↔
       mkCallback (now + secs)%Q (nextCallbackNum s) (BoostFunction func data)
       ∈ q').
Proof.
  intros Hheap.
  destruct (take_0_split T (queue (CallbackRegistry.add func data secs now s)))
    as (r & q' & Hr & Hsplit & Hdue & Hlate); [by apply add_is_heap|].
  destruct (add_spec func data secs now s) as [Hadd _].
  exists r, q'. split; [exact Hr|]. split; [by rewrite Hsplit|].
  set (cb := mkCallback _ _ _) in *.
  assert (Hcb : cb ∈ r ∨ cb ∈ q').
  { apply elem_of_app. rewrite Hsplit, Hadd. apply list_elem_of_here. }
  rewrite Forall_forall in Hdue, Hlate.
  split; split; intros H.
  - destruct Hcb as [?|Hleft%Hlate]; [done|]. simpl in Hleft. lra.
  - by apply Hdue in H.
  - destruct Hcb as [Htaken%Hdue|?]; [|done]. simpl in Htaken. lra.
  - by apply Hlate in H.
Qed.

(** First in, first out: of two callbacks added one after the other to a
    heap, the second due no earlier than the first, [take] never returns the
    second without the first before it, as long as the counter does not
    wrap between the two. *)
Theorem add_first_taken_first (f1 d1 f2 d2 : Z) (secs1 secs2 : Q)
    (now1 now2 T : Timestamp) (max : N) (s : State)
    (results q' : list Callback) :
  is_heap (queue s) →
  (0 <= nextCallbackNum s)%Z → (nextCallbackNum s + 1 < 2 ^ 64)%Z →
  (now1 + secs1 <= now2 + secs2)%Q →
  CallbackRegistry.take max T
    (queue (CallbackRegistry.add f2 d2 secs2 now2
              (CallbackRegistry.add f1 d1 secs1 now1 s)))
  = Ok (results, q') →
  ∀ j,
    results !! j
    = Some (mkCallback (now2 + secs2)%Q (nextCallbackNum s + 1) (BoostFunction f2 d2)) →
    ∃ i, i < j
         ∧ results !! i
           = Some (mkCallback (now1 + secs1)%Q (nextCallbackNum s) (BoostFunction f1 d1)).
Proof.
  intros Hheap Hlow Hhigh Hwhen Htake j Hj.
  set (s1 := CallbackRegistry.add f1 d1 secs1 now1 s) in *.
  set (cb1 := mkCallback (now1 + secs1)%Q _ _).
  set (cb2 := mkCallback (now2 + secs2)%Q _ _) in *.
  destruct (add_spec f1 d1 secs1 now1 s) as [Hadd1 Hnext1]. fold s1 in Hadd1, Hnext1.
  destruct (add_spec f2 d2 secs2 now2 s1) as [Hadd2 _].
  rewrite Hnext1, Z.mod_small in Hadd2 by lia. fold cb2 in Hadd2.
  apply take_sorted in Htake as (Hsort & Hleft & Hsplit & _);
    [|by apply add_is_heap, add_is_heap].
  assert (Hstrict : ¬ cb_le cb2 cb1).
  { intros [Hlt|[_ Hle]]%cb_le_spec; simpl in *; [lra|lia]. }
  assert (Hcb1 : cb1 ∈ results ∨ cb1 ∈ q').
  { apply elem_of_app. rewrite Hsplit, Hadd2, Hadd1.
    apply list_elem_of_further, list_elem_of_here. }
  destruct Hcb1 as [Hin|Hin].
  - apply list_elem_of_lookup in Hin as [i Hi]. exists i. split; trivial.
    destruct (Nat.lt_trichotomy i j) as [?|[->|Hgt]]; trivial; exfalso.
    + rewrite Hi in Hj. injection Hj as Hnum. lia.
    + by apply Hstrict, (StronglySorted_lookup_lt cb_le results Hsort j i).
  - exfalso. apply Hstrict.
    rewrite Forall_forall in Hleft.
    specialize (Hleft cb2 ltac:(apply list_elem_of_lookup; eauto)).
    rewrite Forall_forall in Hleft. by apply Hleft.
Qed.

(** ** [list] and [take] *)

(** The loops of [list] and of an unbounded [take] at a time at which
    everything is due go through the same callbacks in the same order. *)
Lemma list_loop_take_loop fuel : ∀ T clock q acc racc,
  Forall (λ cb, (when cb <= T)%Q) q →
  length q ≤ fuel →
  ∃ items,
    CallbackRegistry.take_loop fuel 0 T q acc = Ok (acc ++ items, [])
    ∧ CallbackRegistry.list_loop fuel clock q racc
      = Ok (racc ++ imap (λ k cb, rRepresentation cb (clock (length racc + k))) items).
Proof.
  induction fuel as [|fuel IH]; intros T clock q acc racc Hdue Hfuel;
    rewrite take_loop_unfold.
  { destruct q; [|simpl in Hfuel; lia]. exists []. simpl.
    by rewrite !app_nil_r. }
  destruct q as [|x c].
  { exists []. simpl. by rewrite !app_nil_r. }
  inversion Hdue as [|? ? Hx Hc]; subst.
  apply Qle_bool_iff in Hx. rewrite Hx. cbn [andb orb N.leb N.compare].
  destruct (pop_cons x c) as (c' & Hpop & Hperm & _). rewrite Hpop.
  destruct (IH T clock c' (acc ++ [x])
              (racc ++ [rRepresentation x (clock (length racc))]))
    as (items & Htake & Hlist).
  { by rewrite Hperm. }
  { rewrite Hperm. simpl in Hfuel. lia. }
  exists (x :: items). split.
  - by rewrite Htake, <- app_assoc.
  - change (CallbackRegistry.list_loop (S fuel) clock (x :: c) racc)
      with (temp_queue ← priority_queue.pop (x :: c);
            CallbackRegistry.list_loop fuel clock temp_queue
              (racc ++ [rRepresentation x (clock (length racc))])).
    rewrite Hpop. simpl. rewrite Hlist, <- app_assoc. simpl.
    rewrite Nat.add_0_r. do 3 f_equal.
    apply imap_ext. intros k cb _. simpl.
    rewrite length_app. simpl. do 2 f_equal. lia.
Qed.

(** [list] shows the callbacks in the order in which [take] hands them
    out: at a time at which every callback is due, [take(0, T)] returns the
    whole queue, and [list] returns the representations of just these
    callbacks in just this order, each with the clock's reading of its turn. *)
Theorem list_in_the_order_of_take (clock : nat → Timestamp) (T : Timestamp) (s : State) :
  Forall (λ cb, (when cb <= T)%Q) (queue s) →
  ∃ items,
    CallbackRegistry.take 0 T (queue s) = Ok (items, [])
    ∧ CallbackRegistry.list clock s
      = (Ok (imap (λ k cb, rRepresentation cb (clock k)) items), s).
Proof.
  intros Hdue.
  destruct (list_loop_take_loop (length (queue s)) T clock (queue s) [] [] Hdue
              (Nat.le_refl _)) as (items & Htake & Hlist).
  exists items. split; [exact Htake|].
  unfold CallbackRegistry.list. by rewrite Hlist.
Qed.

(** ** When [wait] returns *)

(** The loop of [wait] is left by [break] only at a reading of the clock at
    which the deadline has passed or the callback at the front of the queue,
    due before the deadline, is due. *)
Lemma wait_loop_break fuel : ∀ env expireTime w w',
  CallbackRegistry.wait_loop fuel env expireTime w = (Ok (), w') →
  0 < reads w'
  ∧ ((expireTime <= clock env (reads w' - 1))%Q
     ∨ ∃ x c, queue (program w') = x :: c
              ∧ (when x <= clock env (reads w' - 1))%Q).
Proof.
  induction fuel as [|fuel IH]; intros env expireTime w w' Hrun; [done|].
  simpl in Hrun. rewrite nextTimestamp_total in Hrun.
  set (end_ := match _ with Some t => _ | None => _ end) in Hrun.
  destruct (Qle_bool (diff_secs end_ (clock env (reads w))) 0) eqn:Hbreak.
  - injection Hrun as <-. simpl. rewrite Nat.sub_0_r. split; [lia|].
    apply Qle_bool_iff in Hbreak. unfold diff_secs in Hbreak.
    subst end_. destruct (queue (program w)) as [|x c]; [left; lra|].
    destruct (Qltb (when x) expireTime); [right|left; lra].
    exists x, c. split; [reflexivity|lra].
  - unfold CallbackRegistry.checkUserInterrupt in Hrun. simpl in Hrun.
    destruct (interrupt env _); [done|]. by apply IH in Hrun.
Qed.

(** [wait] returns false only when its deadline has passed: if the clock
    did not go back between the last turn of the loop and the return, the
    reading at that turn is [timeoutSecs] seconds (3e10 for a negative
    timeout) or more after the reading at the start. *)
Theorem wait_false_only_after_deadline fuel env timeoutSecs w w' :
  CallbackRegistry.wait fuel env timeoutSecs w = (Ok false, w') →
  (clock env (reads w' - 2) <= clock env (reads w' - 1))%Q →
  (CallbackRegistry.expireTime (clock env (reads w)) timeoutSecs
   <= clock env (reads w' - 2))%Q.
Proof.
  unfold CallbackRegistry.wait. simpl.
  destruct (CallbackRegistry.wait_loop _ _ _ _) as [[[]|e] w0] eqn:Hloop; [|done].
  apply wait_loop_break in Hloop as [Hreads Hbreak].
  simpl. intros [= Hdue <-]. simpl.
  replace (S (reads w0) - 2) with (reads w0 - 1) by lia.
  rewrite Nat.sub_0_r. intros Hclock.
  destruct Hbreak as [?|(x & c & Hq & Hx)]; trivial.
  rewrite Hq, due_cons in Hdue. injection Hdue as Hdue.
  assert (Qle_bool (when x) (clock env (reads w0)) = true); [|congruence].
  apply Qle_bool_iff. lra.
Qed.

(** [wait] does not sleep when there is nothing to wait for: if at the
    first turn of its loop the deadline has passed (as with a timeout of
    zero) or some callback of the heap is due, it returns [due()] at once,
    with no sleep and no check for an interrupt, and the program as it was. *)
Theorem wait_returns_at_once fuel env timeoutSecs w :
  is_heap (queue (program w)) →
  (CallbackRegistry.expireTime (clock env (reads w)) timeoutSecs
   <= clock env (S (reads w)))%Q
  ∨ (∃ cb, cb ∈ queue (program w) ∧ (when cb <= clock env (S (reads w)))%Q) →
  CallbackRegistry.wait (S fuel) env timeoutSecs w
  = (CallbackRegistry.due (queue (program w)) (clock env (S (S (reads w)))),
     mkWaitState (program w) (S (S (S (reads w)))) (sleeps w) (trace w)).
Proof.
  intros Hheap Hready. unfold CallbackRegistry.wait. simpl.
  rewrite nextTimestamp_total.
  set (expire := CallbackRegistry.expireTime _ _) in *.
  set (end_ := match _ with Some t => _ | None => _ end).
  assert (Hend : (end_ <= clock env (S (reads w)))%Q).
  { subst end_. destruct (queue (program w)) as [|x c].
    - destruct Hready as [?|(cb & Hcb & _)]; trivial.
      by apply elem_of_nil in Hcb.
    - pose proof (top_least x c Hheap) as Hmin. rewrite Forall_forall in Hmin.
      destruct (Qltb (when x) expire) eqn:Hlt.
      + apply Qltb_lt in Hlt.
        destruct Hready as [?|(cb & Hcb%Hmin%cb_le_when & Hle)]; lra.
      + apply Qltb_ge in Hlt.
        destruct Hready as [?|(cb & Hcb%Hmin%cb_le_when & Hle)]; lra. }
  assert (Hbreak : Qle_bool (diff_secs end_ (clock env (S (reads w)))) 0 = true).
  { apply Qle_bool_iff. unfold diff_secs. lra. }
  by rewrite Hbreak.
Qed.

(** ** More about the test of the order *)

(** The callbacks are numbered in the order in which they are made, around
    2^64, and the counter moves on by their number. *)
Lemma make_callbacks_mod (n : nat) (ts : Timestamp) (func : Work) :
  ∀ (next : Z),
    (0 <= next < uint64_modulus)%Z →
    (∀ i, i < n →
       (make_callbacks n ts func next).1 !! i
       = Some (mkCallback ts ((next + Z.of_nat i) mod uint64_modulus) func))
    ∧ (make_callbacks n ts func next).2
      = ((next + Z.of_nat n) mod uint64_modulus)%Z.
Proof.
  induction n as [|n IH]; intros next Hnext.
  { split; [lia|]. simpl. rewrite Z.add_0_r. symmetry. by apply Z.mod_small. }
  simpl.
  destruct (IH ((next + 1) mod uint64_modulus)%Z) as [Hnth Hcount].
  { by apply Z.mod_pos_bound. }
  destruct (make_callbacks n ts func _) as [callbacks next']. simpl in *.
  split.
  - intros [|i] Hi; simpl.
    + by rewrite Z.add_0_r, Z.mod_small.
    + rewrite Hnth by lia. do 2 f_equal.
      rewrite Zplus_mod_idemp_l. f_equal. lia.
  - rewrite Hcount, Zplus_mod_idemp_l. f_equal. lia.
Qed.

Lemma first_error_at (check : nat → option string) (before after : list nat)
    (i : nat) (e : string) :
  Forall (λ i, check i = None) before → check i = Some e →
  first_error check (before ++ i :: after) = Some e.
Proof.
  induction 1 as [|j before Hj _ IH]; intros Hi; simpl.
  - by rewrite Hi.
  - rewrite Hj. by apply IH.
Qed.

(** [testCallbackOrdering] raises no error and uses up a hundred numbers
    of the counter, from every value of the counter that leaves room for
    them below 2^64. *)
Theorem testCallbackOrdering_no_error (ts : Timestamp) (next : Z) :
  (0 <= next)%Z → (next + 100 <= 2 ^ 64)%Z →
  testCallbackOrdering ts next = (None, ((next + 100) mod 2 ^ 64)%Z).
Proof.
  intros Hnext Hwrap.
  pose proof (testCallbackOrdering_passes ts next Hnext Hwrap) as Hpass.
  unfold testCallbackOrdering in *.
  destruct (make_callbacks_mod 100 ts (BoostFunction 0 0) next) as [_ Hcount].
  { unfold uint64_modulus. lia. }
  destruct (make_callbacks 100 ts _ next) as [callbacks next'].
  cbn [fst snd] in Hpass, Hcount. unfold uint64_modulus in Hcount.
  by rewrite Hpass, Hcount.
Qed.

(** [testCallbackOrdering] stops with its first error whenever the counter
    wraps within its hundred callbacks: the callback numbered 0 then
    compares less than the one made just before it. *)
Theorem testCallbackOrdering_error_on_wrap (ts : Timestamp) (next : Z) :
  (2 ^ 64 - 100 < next < 2 ^ 64)%Z →
  (testCallbackOrdering ts next).1 = Some "Callback ordering is broken [1]".
Proof.
  intros Hnext. unfold testCallbackOrdering.
  destruct (make_callbacks_mod 100 ts (BoostFunction 0 0) next) as [Hnth _].
  { unfold uint64_modulus. lia. }
  destruct (make_callbacks 100 ts _ next) as [callbacks next'].
  simpl in Hnth. unfold uint64_modulus in Hnth.
  set (k := Z.to_nat (2 ^ 64 - next)).
  assert (Hk : 1 ≤ k ≤ 99) by lia.
  assert (Hseq : seq 1 99 = seq 1 (k - 1) ++ k :: seq (S k) (99 - k)).
  { replace 99 with ((k - 1) + S (99 - k)) at 1 by lia.
    rewrite seq_app. simpl. by replace (S (k - 1)) with k by lia. }
  cbn [fst]. rewrite Hseq.
  erewrite first_error_at; [reflexivity| |].
  - apply Forall_forall. intros i Hi%list_elem_of_In%in_seq.
    unfold check_neighbours, cb_gt.
    rewrite (Hnth i), (Hnth (i - 1)) by lia.
    rewrite !Z.mod_small by lia.
    rewrite !cb_lt_same_time.
    destruct (Z.ltb_spec (next + Z.of_nat i) (next + Z.of_nat (i - 1))); [lia|].
    by destruct (Z.ltb_spec (next + Z.of_nat (i - 1)) (next + Z.of_nat i)); [|lia].
  - unfold check_neighbours.
    rewrite (Hnth k), (Hnth (k - 1)) by lia.
    replace (next + Z.of_nat k)%Z with (2 ^ 64)%Z by lia.
    rewrite Z_mod_same_full, (Z.mod_small (next + _)) by lia.
    rewrite cb_lt_same_time.
    by destruct (Z.ltb_spec 0 (next + Z.of_nat (k - 1))); [|lia].
Qed.

(** ** These theorems on the examples *)

Lemma scenario_queue :
  queue (scenario 100%Q)
  = [mkCallback 100%Q 0 (BoostFunction 10 0);
     mkCallback 101%Q 3 (BoostFunction 13 0);
     mkCallback 105%Q 2 (BoostFunction 12 0);
     mkCallback 105%Q 1 (BoostFunction 11 0)].
Proof. vm_compute. reflexivity. Qed.

(** The scenario is reached by four calls of [add]. *)
Lemma registry_stays_heap_witness :
  reachable (scenario 100%Q)
  ∧ is_heap (queue (scenario 100%Q))
  ∧ ∀ x c, queue (scenario 100%Q) = x :: c → Forall (in_order x) (x :: c).
Proof.
  assert (H : reachable (scenario 100%Q)).
  { unfold scenario, initial. repeat apply reachable_add. apply reachable_new. }
  split; [exact H|]. exact (registry_stays_heap (scenario 100%Q) H).
Defined.

(** The scenario bears the numbers 0 to 3. *)
Lemma callback_numbers_unique_witness :
  numbered (scenario 100%Q)
  ∧ (0 <= nextCallbackNum (scenario 100%Q))%Z
  ∧ Forall (λ cb, (0 <= callbackNum cb < nextCallbackNum (scenario 100%Q))%Z)
      (queue (scenario 100%Q))
  ∧ NoDup (callbackNum <$> queue (scenario 100%Q))
  ∧ ∀ i j a b,
      queue (scenario 100%Q) !! i = Some a →
      queue (scenario 100%Q) !! j = Some b → i ≠ j →
      cb_lt a b ≠ cb_lt b a.
Proof.
  assert (H : numbered (scenario 100%Q)).
  { unfold scenario.
    repeat (apply numbered_add; [|vm_compute; reflexivity]).
    apply numbered_initial. }
  split; [exact H|]. exact (callback_numbers_unique (scenario 100%Q) H).
Defined.

(** The smallest due time of the scenario is 100. *)
Lemma nextTimestamp_is_smallest_witness :
  is_heap (queue (scenario 100%Q))
  ∧ CallbackRegistry.nextTimestamp (queue (scenario 100%Q)) = Ok (Some 100%Q)
  ∧ match CallbackRegistry.nextTimestamp (queue (scenario 100%Q)) with
    | Ok (Some t) =>
        (∃ cb, cb ∈ queue (scenario 100%Q) ∧ when cb = t)
        ∧ ∀ cb, cb ∈ queue (scenario 100%Q) → (t <= when cb)%Q
    | Ok None => queue (scenario 100%Q) = []
    | Err _ => False
    end.
Proof.
  split; [vm_compute; reflexivity|]. split; [vm_compute; reflexivity|].
  apply (nextTimestamp_is_smallest (queue (scenario 100%Q))).
  vm_compute. reflexivity.
Defined.

(** The scenario at time 101 *)
Lemma due_iff_some_callback_due_witness :
  is_heap (queue (scenario 100%Q))
  ∧ (CallbackRegistry.due (queue (scenario 100%Q)) 101%Q = Ok true ↔
     ∃ cb, cb ∈ queue (scenario 100%Q) ∧ (when cb <= 101)%Q)
  ∧ (CallbackRegistry.due (queue (scenario 100%Q)) 101%Q = Ok false ↔
     ∀ cb, cb ∈ queue (scenario 100%Q) → (101 < when cb)%Q).
Proof.
  split; [vm_compute; reflexivity|].
  apply (due_iff_some_callback_due (queue (scenario 100%Q)) 101%Q).
  vm_compute. reflexivity.
Defined.

(** A fifth callback, added to the scenario at 102 with a delay of one
    second, and [take] at 104 *)
Lemma add_then_take_witness :
  is_heap (queue (scenario 100%Q))
  ∧ ∃ results q',
      CallbackRegistry.take 0 104%Q
        (queue (CallbackRegistry.add 14 0 1%Q 102%Q (scenario 100%Q)))
      = Ok (results, q')
      ∧ results ++ q'
        ≡ₚ mkCallback (102 + 1)%Q (nextCallbackNum (scenario 100%Q))
             (BoostFunction 14 0)
           :: queue (scenario 100%Q)
      ∧ ((102 + 1 <= 104)%Q ↔
         mkCallback (102 + 1)%Q (nextCallbackNum (scenario 100%Q))
           (BoostFunction 14 0) ∈ results)
      ∧ ((104 < 102 + 1)%Q ↔
         mkCallback (102 + 1)%Q (nextCallbackNum (scenario 100%Q))
           (BoostFunction 14 0) ∈ q').
Proof.
  split; [vm_compute; reflexivity|].
  apply (add_then_take 14 0 1%Q 102%Q 104%Q (scenario 100%Q)).
  vm_compute. reflexivity.
Defined.

(** Two callbacks added to the scenario for the same time, 103: the one
    added first is taken third, the other fourth. *)
Lemma add_first_taken_first_witness :
  is_heap (queue (scenario 100%Q))
  ∧ (0 <= nextCallbackNum (scenario 100%Q))%Z
  ∧ (nextCallbackNum (scenario 100%Q) + 1 < 2 ^ 64)%Z
  ∧ (102 + 1 <= 101 + 2)%Q
  ∧ ∃ results q',
      CallbackRegistry.take 0 104%Q
        (queue (CallbackRegistry.add 15 0 2%Q 101%Q
                  (CallbackRegistry.add 14 0 1%Q 102%Q (scenario 100%Q))))
      = Ok (results, q')
      ∧ results !! 3
        = Some (mkCallback (101 + 2)%Q (nextCallbackNum (scenario 100%Q) + 1)
                  (BoostFunction 15 0))
      ∧ ∃ i, i < 3
             ∧ results !! i
               = Some (mkCallback (102 + 1)%Q (nextCallbackNum (scenario 100%Q))
                         (BoostFunction 14 0)).
Proof.
  assert (Hheap : is_heap (queue (scenario 100%Q))) by (vm_compute; reflexivity).
  assert (Hlow : (0 <= nextCallbackNum (scenario 100%Q))%Z) by (by vm_compute).
  assert (Hhigh : (nextCallbackNum (scenario 100%Q) + 1 < 2 ^ 64)%Z)
    by (vm_compute; reflexivity).
  assert (Hwhen : (102 + 1 <= 101 + 2)%Q) by (by vm_compute).
  do 4 (split; trivial).
  eexists _, _. split; [vm_compute; reflexivity|].
  split; [vm_compute; reflexivity|].
  apply (add_first_taken_first 14 0 15 0 1%Q 2%Q 102%Q 101%Q 104%Q 0
           (scenario 100%Q) _ _ Hheap Hlow Hhigh Hwhen
           ltac:(vm_compute; reflexivity) 3).
  vm_compute. reflexivity.
Defined.

(** The scenario: two callbacks at most are taken at 101, the rest at 105. *)
Lemma take_in_steps_witness :
  (101 <= 105)%Q
  ∧ ∃ r1 q1 r2 q2,
      CallbackRegistry.take 2 101%Q (queue (scenario 100%Q)) = Ok (r1, q1)
      ∧ CallbackRegistry.take 0 105%Q q1 = Ok (r2, q2)
      ∧ length r1 = 2 ∧ length r2 = 2
      ∧ CallbackRegistry.take 0 105%Q (queue (scenario 100%Q))
        = Ok (r1 ++ r2, q2).
Proof.
  assert (HT : (101 <= 105)%Q) by (by vm_compute).
  split; [exact HT|].
  eexists _, _, _, _. split; [vm_compute; reflexivity|].
  split; [vm_compute; reflexivity|].
  split; [reflexivity|]. split; [reflexivity|].
  eapply (take_in_steps 2 101%Q 105%Q (queue (scenario 100%Q)));
    [exact HT|vm_compute; reflexivity|vm_compute; reflexivity].
Defined.

(** The scenario at 101: three callbacks are asked for and two are due. *)
Lemma take_as_many_as_due_witness :
  (0 < 3)%N
  ∧ is_heap (queue (scenario 100%Q))
  ∧ ∃ results q',
      CallbackRegistry.take 3 101%Q (queue (scenario 100%Q)) = Ok (results, q')
      ∧ results ++ q' ≡ₚ queue (scenario 100%Q)
      ∧ Forall (λ cb, (when cb <= 101)%Q) results
      ∧ is_heap q'
      ∧ (N.of_nat (length results) = 3%N ∨ Forall (λ cb, (101 < when cb)%Q) q').
Proof.
  split; [reflexivity|]. split; [vm_compute; reflexivity|].
  apply (take_as_many_as_due 3 101%Q (queue (scenario 100%Q)));
    [reflexivity|vm_compute; reflexivity].
Defined.

(** The scenario at 105, when every callback is due *)
Lemma list_in_the_order_of_take_witness :
  Forall (λ cb, (when cb <= 105)%Q) (queue (scenario 100%Q))
  ∧ ∃ items,
      CallbackRegistry.take 0 105%Q (queue (scenario 100%Q)) = Ok (items, [])
      ∧ CallbackRegistry.list (ticking 105%Q) (scenario 100%Q)
        = (Ok (imap (λ k cb, rRepresentation cb (ticking 105%Q k)) items),
           scenario 100%Q).
Proof.
  assert (Hdue : Forall (λ cb, (when cb <= 105)%Q) (queue (scenario 100%Q))).
  { rewrite scenario_queue. repeat constructor; by vm_compute. }
  split; [exact Hdue|].
  exact (list_in_the_order_of_take (ticking 105%Q) 105%Q (scenario 100%Q) Hdue).
Defined.

(** A wait of a tenth of a second on an empty registry returns false when
    the clock is a tenth of a second further. *)
Lemma wait_false_only_after_deadline_witness :
  ∃ w',
    CallbackRegistry.wait 10 (alone (stepping 100%Q 0.1%Q)) 0.1%Q (idle initial)
    = (Ok false, w')
    ∧ (clock (alone (stepping 100%Q 0.1%Q)) (reads w' - 2)
       <= clock (alone (stepping 100%Q 0.1%Q)) (reads w' - 1))%Q
    ∧ (CallbackRegistry.expireTime
         (clock (alone (stepping 100%Q 0.1%Q)) (reads (idle initial))) 0.1%Q
       <= clock (alone (stepping 100%Q 0.1%Q)) (reads w' - 2))%Q.
Proof.
  eexists. split; [vm_compute; reflexivity|].
  split; [by vm_compute|].
  apply (wait_false_only_after_deadline 10 (alone (stepping 100%Q 0.1%Q)) 0.1%Q
           (idle initial)); [vm_compute; reflexivity|by vm_compute].
Defined.

(** A wait with a timeout of zero on the scenario, and a wait of an hour
    when a callback is due already: neither sleeps. *)
Lemma wait_returns_at_once_witness :
  is_heap (queue (program (idle (scenario 100%Q))))
  ∧ (CallbackRegistry.expireTime (clock (busy None) 0) 0%Q <= clock (busy None) 1)%Q
  ∧ CallbackRegistry.wait 1 (busy None) 0%Q (idle (scenario 100%Q))
    = (Ok true, mkWaitState (scenario 100%Q) 3 0 [])
  ∧ CallbackRegistry.wait 1 (busy None) 0%Q (idle (scenario 100%Q))
    = (CallbackRegistry.due (queue (scenario 100%Q)) (clock (busy None) 2),
       mkWaitState (program (idle (scenario 100%Q))) 3
         (sleeps (idle (scenario 100%Q))) (trace (idle (scenario 100%Q)))).
Proof.
  assert (Hheap : is_heap (queue (program (idle (scenario 100%Q)))))
    by (vm_compute; reflexivity).
  assert (Hpast : (CallbackRegistry.expireTime (clock (busy None) 0) 0%Q
                   <= clock (busy None) 1)%Q) by (by vm_compute).
  split; [exact Hheap|]. split; [exact Hpast|].
  split; [vm_compute; reflexivity|].
  exact (wait_returns_at_once 0 (busy None) 0%Q (idle (scenario 100%Q)) Hheap
           (or_introl Hpast)).
Defined.

(** The test from a counter of zero *)
Lemma testCallbackOrdering_no_error_witness :
  (0 <= 0)%Z ∧ (0 + 100 <= 2 ^ 64)%Z
  ∧ testCallbackOrdering 0%Q 0 = (None, ((0 + 100) mod 2 ^ 64)%Z).
Proof.
  assert (H0 : (0 <= 0)%Z) by lia.
  assert (H1 : (0 + 100 <= 2 ^ 64)%Z) by lia.
  split; [exact H0|]. split; [exact H1|].
  exact (testCallbackOrdering_no_error 0%Q 0 H0 H1).
Defined.

(** The test from a counter fifty below 2^64 *)
Lemma testCallbackOrdering_error_on_wrap_witness :
  (2 ^ 64 - 100 < 2 ^ 64 - 50 < 2 ^ 64)%Z
  ∧ (testCallbackOrdering 0%Q (2 ^ 64 - 50)).1
    = Some "Callback ordering is broken [1]".
Proof.
  assert (H : (2 ^ 64 - 100 < 2 ^ 64 - 50 < 2 ^ 64)%Z) by lia.
  split; [exact H|].
  exact (testCallbackOrdering_error_on_wrap 0%Q (2 ^ 64 - 50) H).
Defined.

(** * The order of extraction and the order of insertion *)





